(** * GeoLocation: the location session of react-native-geolocation

    A shallow embedding of [GeoLocation.js] (class [GeoLocation] with
    [startObserving] / [stopObserving], the helpers [getInitialPosition],
    [watchPositionUntilAccurate], [watchPositionForMovement],
    [requestLocationPermission] and [createError]).

    The module is event driven: the application calls the two methods and the
    host (React Native) later runs the callbacks the module registered.  The
    embedding is therefore a labelled transition system: a [state] holding the
    two fields of the session object together with what the host keeps for it
    (suspended [startObserving] calls, the [GPSState] listener, pending
    [getCurrentPosition] requests and active [watchPosition] subscriptions),
    an [event] for each thing that can happen next, and a function [step] that
    runs the JavaScript triggered by the event and returns the new state with
    the list of observable [action]s (callbacks into the application and calls
    into the host API), in program order. *)

From Stdlib Require Import ZArith QArith List String Bool Lia.
From stdpp Require Import base option gmap strings list fin_maps.
From stdpp Require Import pretty.
Import ListNotations.

Local Open Scope string_scope.
Local Open Scope Z_scope.
Local Open Scope list_scope.

(** ** JavaScript values *)

(** A JavaScript Number: a finite double is a rational; the three special
    values are kept apart because comparisons treat them specially. *)
Inductive number : Type :=
| NaN
| NegInfinity
| Finite (q : Q)
| PosInfinity.

Set Warnings "-register-all".

(** The values a position argument and its fields can take: the primitives
    (strings left out: the location driver reports numeric fields only) and
    plain data objects.  Properties hold data, never functions. *)
Inductive value : Type :=
| VUndefined
| VNull
| VBool (b : bool)
| VNum (n : number)
| VObj (props : gmap string value).

Definition num (z : Z) : value := VNum (Finite (inject_Z z)).

(** ToBoolean: what [if (!position)] tests. *)
Definition truthy (v : value) : bool :=
  match v with
  | VUndefined | VNull => false
  | VBool b => b
  | VNum NaN => false
  | VNum (Finite q) => negb (Qeq_bool q 0)
  | VNum _ => true
  | VObj _ => true
  end.

(** Property read [v.k] for a key that no built-in prototype defines (the
    source reads [coords], [accuracy] only).  [None] is the TypeError raised
    on [undefined] and [null]; a primitive or an object without the key gives
    [undefined]. *)
Definition get (v : value) (k : string) : option value :=
  match v with
  | VUndefined | VNull => None
  | VBool _ | VNum _ => Some VUndefined
  | VObj props => Some (default VUndefined (props !! k))
  end.

(** Property write [v.k = x] in strict code (the file is an ES module):
    TypeError on anything but an object. *)
Definition set (v : value) (k : string) (x : value) : option value :=
  match v with
  | VObj props => Some (VObj (<[k := x]> props))
  | _ => None
  end.

(** ToNumber, as the relational operators apply it.  For a plain data object
    OrdinaryToPrimitive first tries [valueOf] (inherited: returns the object;
    own: not callable) and then [toString]: the inherited one yields
    ["[object Object]"], which converts to NaN, while an own (non-callable)
    [toString] property leaves no primitive and raises a TypeError. *)
Definition ToNumber (v : value) : option number :=
  match v with
  | VUndefined => Some NaN
  | VNull => Some (Finite 0)
  | VBool b => Some (Finite (if b then 1 else 0))
  | VNum n => Some n
  | VObj props => match props !! "toString" with
                  | Some _ => None
                  | None => Some NaN
                  end
  end.

(** IsLessThan on Numbers: [None] is the "undefined" result of a comparison
    with NaN. *)
Definition IsLessThan (x y : number) : option bool :=
  match x, y with
  | NaN, _ | _, NaN => None
  | PosInfinity, _ => Some false
  | _, PosInfinity => Some true
  | _, NegInfinity => Some false
  | NegInfinity, _ => Some true
  | Finite a, Finite b => Some (match (a ?= b)%Q with Lt => true | _ => false end)
  end.

(** [x > y] is [IsLessThan y x] with undefined read as false. *)
Definition js_gt (x y : number) : bool :=
  match IsLessThan y x with Some true => true | _ => false end.

(** [x <= y] is the negation of [IsLessThan y x], false when undefined. *)
Definition js_le (x y : number) : bool :=
  match IsLessThan y x with Some false => true | _ => false end.

(** ** Constants of the module *)

Definition TIMEOUT : Z := 10 * 60 * 1000.
Definition MAX_ACCURACY : Z := 10.
Definition MAX_AGE : Z := 5 * 60 * 1000.
Definition MIN_DISTANCE : Z := 10.

Module errorCodes.
Definition PERMISSION_DENIED : Z := 1.
Definition POSITION_UNAVAILABLE : Z := 2.
Definition TIMEOUT : Z := 3.
Definition UNKNOWN : Z := 4.
End errorCodes.

Module errorMessages.
Definition PERMISSION_DENIED : string := "Location permission denied by user".
Definition POSITION_UNAVAILABLE : string := "Location services are turned off".
Definition TIMEOUT : string := "Location serach timed out".
Definition UNKNOWN : string := "Unknown error".
End errorMessages.

Module statusCodes.
Definition SEARCHING : Z := 1.
Definition LOW_ACCURACY : Z := 2.
Definition HIGH_ACCURACY : Z := 3.
End statusCodes.

(** ** Errors *)

(** A JavaScript [Error] object: its message and the [code] property, which
    only [createError] and the host's PositionErrors set. *)
Record error : Type := { message : string; code : option Z }.

(** [Error(msg)]: no [code]. *)
Definition Error (msg : string) : error := {| message := msg; code := None |}.

Definition createError (msg : string) (errorCode : Z) : error :=
  {| message := msg; code := Some errorCode |}.

(** ** The status derivation *)

(** The literal [MAX_ACCURACY] as a Number. *)
Definition threshold : number := Finite (inject_Z MAX_ACCURACY).

(** [position.coords.accuracy] converted for a comparison with
    [MAX_ACCURACY]; [None] when one of the two reads or the conversion raises
    a TypeError. *)
Definition accuracy (position : value) : option number :=
  coords ← get position "coords";
  acc ← get coords "accuracy";
  ToNumber acc.

(** The body of the inner function [onUpdate]: the value handed to
    [onLocation], or [None] when a TypeError is raised before the call. *)
Definition onUpdate (position : value) : option value :=
  if negb (truthy position) then
    Some (VObj {[ "status" := num statusCodes.SEARCHING ]})
  else
    a ← accuracy position;
    if js_gt a threshold
    then set position "status" (num statusCodes.LOW_ACCURACY)
    else set position "status" (num statusCodes.HIGH_ACCURACY).

(** ** The permission gate *)

(** [PermissionsAndroid.PERMISSIONS.ACCESS_COARSE_LOCATION] and
    [ACCESS_FINE_LOCATION], the React Native constants. *)
Definition ACCESS_COARSE_LOCATION : string := "android.permission.ACCESS_COARSE_LOCATION".
Definition ACCESS_FINE_LOCATION : string := "android.permission.ACCESS_FINE_LOCATION".

(** How the promise of [PermissionsAndroid.requestMultiple] settles: with the
    map from each requested permission to the user's answer, or with an
    exception of the host. *)
Inductive settled : Type :=
| Resolved (granted : gmap string string)
| Raised (err : error).

(** Outcome of an async function that returns nothing. *)
Inductive completion : Type :=
| Returns
| Throws (err : error).

(** [requestLocationPermission], resumed with the settled request. *)
Definition requestLocationPermission (r : settled) : completion :=
  match r with
  | Raised err => Throws (createError (message err) errorCodes.UNKNOWN)
  | Resolved granted =>
      if decide (granted !! ACCESS_COARSE_LOCATION = Some "granted")
      then Returns
      else Throws (createError errorMessages.PERMISSION_DENIED
                               errorCodes.PERMISSION_DENIED)
  end.

(** ** The host and the session *)

(** One [startObserving] call is named by the pair of callbacks
    [(onLocation, onError)] it was given; a [call] stands for that pair. *)
Definition call : Type := nat.

(** The success callbacks the module hands to the location driver: the inner
    function [onUpdate] of a call, and the arrow function given to
    [watchPositionUntilAccurate], which captures [this] and the same
    [onUpdate].  The error callback is always the call's [onError]. *)
Inductive success_callback : Type :=
| OnUpdate (c : call)
| UntilAccurate (c : call).

(** The options object of [getCurrentPosition] / [watchPosition]. *)
Record options : Type := {
  enableHighAccuracy : bool;
  timeout : Z;
  maximumAge : Z;
  distanceFilter : option Z
}.

(** A request registered with [navigator.geolocation]. *)
Record request : Type := {
  success : success_callback;
  error_callback : call;
  request_options : options
}.

(** Modelled from the spec: the values of the [GPSState] status constants
    are not in the source; section 6 gives the signal as one of AUTHORIZED,
    RESTRICTED or another value. *)
Inductive gps_status : Type :=
| AUTHORIZED
| RESTRICTED
| OtherStatus (n : nat).

#[global] Instance gps_status_eq_dec : EqDecision gps_status.
Proof. solve_decision. Defined.

(** What the application and the host can observe, in program order. *)
Inductive action : Type :=
| Location (c : call) (position : value)     (* onLocation(position) *)
| Failure (c : call) (err : error)           (* onError(err) *)
| Rejected (c : call) (err : error)          (* the promise of startObserving rejects *)
| Fault                                      (* a TypeError escapes a host callback *)
| RequestMultiple (permissions : list string)
| AddListener (c : call)
| RemoveListener
| GetCurrentPosition (i : nat) (o : options)
| WatchPosition (id : nat) (o : options)
| ClearWatch (id : option nat).

(** The session object ([started], [watchId]; [None] is [undefined]) and the
    host-side registrations: the [startObserving] calls suspended at their
    [await], the listener of [GPSState], the pending [getCurrentPosition]
    requests and the active [watchPosition] subscriptions.  The host's
    contract is the one sections 5, 6 and 9 of the specification give:
    [GPSState] keeps a single process-wide listener; a subscription is
    cancellable, and after [clearWatch] the driver calls it no more; a
    [getCurrentPosition] request is single-shot, it calls back once and the
    API has no way to cancel it.  [next_poll] and [next_watch] number the
    requests, the latter being the identifier [watchPosition] returns. *)
Record state : Type := {
  started : bool;
  watchId : option nat;
  awaiting : list call;
  listener : option call;
  polls : gmap nat request;
  watches : gmap nat request;
  next_poll : nat;
  next_watch : nat
}.

(** [new GeoLocation()] on a host with nothing registered. *)
Definition constructor : state :=
  {| started := false; watchId := None; awaiting := []; listener := None;
     polls := ∅; watches := ∅; next_poll := 0; next_watch := 0 |}.

Definition set_started (b : bool) (s : state) : state :=
  {| started := b; watchId := watchId s; awaiting := awaiting s;
     listener := listener s; polls := polls s; watches := watches s;
     next_poll := next_poll s; next_watch := next_watch s |}.

Definition set_watchId (w : option nat) (s : state) : state :=
  {| started := started s; watchId := w; awaiting := awaiting s;
     listener := listener s; polls := polls s; watches := watches s;
     next_poll := next_poll s; next_watch := next_watch s |}.

Definition set_awaiting (l : list call) (s : state) : state :=
  {| started := started s; watchId := watchId s; awaiting := l;
     listener := listener s; polls := polls s; watches := watches s;
     next_poll := next_poll s; next_watch := next_watch s |}.

Definition set_listener (l : option call) (s : state) : state :=
  {| started := started s; watchId := watchId s; awaiting := awaiting s;
     listener := l; polls := polls s; watches := watches s;
     next_poll := next_poll s; next_watch := next_watch s |}.

Definition set_polls (p : gmap nat request) (n : nat) (s : state) : state :=
  {| started := started s; watchId := watchId s; awaiting := awaiting s;
     listener := listener s; polls := p; watches := watches s;
     next_poll := n; next_watch := next_watch s |}.

Definition set_watches (w : gmap nat request) (n : nat) (s : state) : state :=
  {| started := started s; watchId := watchId s; awaiting := awaiting s;
     listener := listener s; polls := polls s; watches := w;
     next_poll := next_poll s; next_watch := n |}.

(** *** The host API *)

Definition getCurrentPosition (r : request) (s : state) : state * list action :=
  (set_polls (<[next_poll s := r]> (polls s)) (S (next_poll s)) s,
   [GetCurrentPosition (next_poll s) (request_options r)]).

Definition watchPosition (r : request) (s : state) : nat * state * list action :=
  (next_watch s,
   set_watches (<[next_watch s := r]> (watches s)) (S (next_watch s)) s,
   [WatchPosition (next_watch s) (request_options r)]).

(** [clearWatch(undefined)] finds no subscription and does nothing. *)
Definition clearWatch (id : option nat) (s : state) : state * list action :=
  (match id with
   | Some i => set_watches (delete i (watches s)) (next_watch s) s
   | None => s
   end,
   [ClearWatch id]).

(** *** The private helpers of the module *)

Definition getInitialPosition (succ : success_callback) (err : call) (s : state)
  : state * list action :=
  getCurrentPosition
    {| success := succ; error_callback := err;
       request_options := {| enableHighAccuracy := false; timeout := TIMEOUT;
                             maximumAge := MAX_AGE; distanceFilter := None |} |} s.

Definition watchPositionUntilAccurate (succ : success_callback) (err : call) (s : state)
  : nat * state * list action :=
  watchPosition
    {| success := succ; error_callback := err;
       request_options := {| enableHighAccuracy := true; timeout := TIMEOUT;
                             maximumAge := 0; distanceFilter := Some 0 |} |} s.

Definition watchPositionForMovement (succ : success_callback) (err : call) (s : state)
  : nat * state * list action :=
  watchPosition
    {| success := succ; error_callback := err;
       request_options := {| enableHighAccuracy := true; timeout := TIMEOUT;
                             maximumAge := 0; distanceFilter := Some MIN_DISTANCE |} |} s.

(** *** Callbacks *)

(** A call of the inner [onUpdate] of call [c]. *)
Definition callOnUpdate (c : call) (position : value) : list action :=
  match onUpdate position with
  | Some v => [Location c v]
  | None => [Fault]
  end.

(** The arrow function passed to [watchPositionUntilAccurate]. *)
Definition untilAccurate (c : call) (position : value) (s : state)
  : state * list action :=
  match accuracy position with
  | None => (s, [Fault])
  | Some a =>
      if js_le a threshold then
        let '(s1, a1) := clearWatch (watchId s) s in
        let '(id, s2, a2) := watchPositionForMovement (OnUpdate c) c s1 in
        (set_watchId (Some id) s2, a1 ++ a2 ++ callOnUpdate c position)
      else (s, callOnUpdate c position)
  end.

Definition invoke (cb : success_callback) (position : value) (s : state)
  : state * list action :=
  match cb with
  | OnUpdate c => (s, callOnUpdate c position)
  | UntilAccurate c => untilAccurate c position s
  end.

(** The listener given to [GPSState.addListener]. *)
Definition gpsListener (c : call) (status : gps_status) (s : state)
  : state * list action :=
  let '(s1, a1) :=
    if decide (status = AUTHORIZED) then
      let '(s', a) := getInitialPosition (OnUpdate c) c s in
      (s', a ++ callOnUpdate c VUndefined)
    else (s, []) in
  if decide (status ≠ RESTRICTED) then (s1, a1)
  else (s1, a1 ++ [Failure c (createError errorMessages.POSITION_UNAVAILABLE
                                           errorCodes.POSITION_UNAVAILABLE)]).

(** *** The two methods *)

(** [startObserving] up to its [await]: the guard, then the permission
    request; the call is suspended until the request settles. *)
Definition startObserving (c : call) (s : state) : state * list action :=
  if started s then
    (s, [Rejected c (Error "Called startObserving more than once")])
  else
    (set_awaiting (awaiting s ++ [c]) s,
     [RequestMultiple [ACCESS_FINE_LOCATION; ACCESS_COARSE_LOCATION]]).

(** [startObserving] from the [await] on. *)
Definition startObserving_resume (c : call) (r : settled) (s : state)
  : state * list action :=
  match requestLocationPermission r with
  | Throws err => (s, [Failure c err])
  | Returns =>
      let s := set_started true s in
      let a0 := callOnUpdate c VUndefined in
      let s := set_listener (Some c) s in
      let '(s, a1) := getInitialPosition (OnUpdate c) c s in
      let '(id, s, a2) := watchPositionUntilAccurate (UntilAccurate c) c s in
      (set_watchId (Some id) s, a0 ++ [AddListener c] ++ a1 ++ a2)
  end.

Definition stopObserving (s : state) : state * list action :=
  match watchId s with
  | None => (s, [])
  | Some id =>
      let '(s1, a1) := clearWatch (Some id) s in
      (set_listener None s1, a1 ++ [RemoveListener])
  end.

(** ** Events and runs *)

Inductive event : Type :=
| StartObserving (c : call)                  (* the application calls startObserving *)
| StopObserving                              (* the application calls stopObserving *)
| PermissionSettled (c : call) (r : settled) (* the permission request of call c settles *)
| PollFix (i : nat) (position : value)       (* getCurrentPosition request i succeeds *)
| PollFailed (i : nat) (err : error)         (* getCurrentPosition request i fails *)
| WatchFix (id : nat) (position : value)     (* subscription id reports a position *)
| WatchFailed (id : nat) (err : error)       (* subscription id reports an error *)
| GPSStatus (status : gps_status).           (* GPSState emits a status *)

(** Remove the first occurrence of [c]. *)
Fixpoint resume (c : call) (l : list call) : option (list call) :=
  match l with
  | [] => None
  | x :: l' => if decide (x = c) then Some l'
               else option_map (cons x) (resume c l')
  end.

(** One event.  An event that names nothing registered (a request already
    completed, a cleared subscription, no listener) runs no code. *)
Definition step (s : state) (e : event) : state * list action :=
  match e with
  | StartObserving c => startObserving c s
  | StopObserving => stopObserving s
  | PermissionSettled c r =>
      match resume c (awaiting s) with
      | Some l => startObserving_resume c r (set_awaiting l s)
      | None => (s, [])
      end
  | PollFix i position =>
      match polls s !! i with
      | Some r => invoke (success r) position
                    (set_polls (delete i (polls s)) (next_poll s) s)
      | None => (s, [])
      end
  | PollFailed i err =>
      match polls s !! i with
      | Some r => (set_polls (delete i (polls s)) (next_poll s) s,
                   [Failure (error_callback r) err])
      | None => (s, [])
      end
  | WatchFix id position =>
      match watches s !! id with
      | Some r => invoke (success r) position s
      | None => (s, [])
      end
  | WatchFailed id err =>
      match watches s !! id with
      | Some r => (s, [Failure (error_callback r) err])
      | None => (s, [])
      end
  | GPSStatus status =>
      match listener s with
      | Some c => gpsListener c status s
      | None => (s, [])
      end
  end.

Fixpoint run (s : state) (tr : list event) : state * list action :=
  match tr with
  | [] => (s, [])
  | e :: tr' =>
      let '(s1, a1) := step s e in
      let '(s2, a2) := run s1 tr' in
      (s2, a1 ++ a2)
  end.



Definition is_location (a : action) : bool :=
  match a with Location _ _ => true | _ => false end.

(** ** Reading a delivered update *)

(** The accuracy radius of the fix an update carries, when it carries one:
    a [coords] record with a numeric [accuracy]. *)
Definition fix_radius (v : value) : option number :=
  match v with
  | VObj props =>
      match props !! "coords" with
      | Some (VObj c) =>
          match c !! "accuracy" with
          | Some (VNum n) => Some n
          | _ => None
          end
      | _ => None
      end
  | _ => None
  end.

(** The update [onUpdate()] hands over when it is called without a position. *)
Definition searching : value := VObj {[ "status" := num statusCodes.SEARCHING ]}.

Definition has_status (v : value) (st : Z) : Prop := get v "status" = Some (num st).

(** A position as the driver reports it, with accuracy radius [a]. *)
Definition position_with_accuracy (a : Q) : value :=
  VObj {[ "coords" := VObj {[ "accuracy" := VNum (Finite a) ]} ]}.

(** The permission answer when the user grants both scopes, and when only the
    coarse one is granted. *)
Definition granted_both : settled :=
  Resolved {[ ACCESS_FINE_LOCATION := "granted"; ACCESS_COARSE_LOCATION := "granted" ]}.

Definition granted_coarse_only : settled :=
  Resolved {[ ACCESS_FINE_LOCATION := "denied"; ACCESS_COARSE_LOCATION := "granted" ]}.

Definition denied_both : settled :=
  Resolved {[ ACCESS_FINE_LOCATION := "denied"; ACCESS_COARSE_LOCATION := "denied" ]}.

(** The requests the helpers register, for the callbacks of call [c]. *)
Definition initial_request (c : call) : request :=
  {| success := OnUpdate c; error_callback := c;
     request_options := {| enableHighAccuracy := false; timeout := TIMEOUT;
                           maximumAge := MAX_AGE; distanceFilter := None |} |}.

Definition until_accurate_request (c : call) : request :=
  {| success := UntilAccurate c; error_callback := c;
     request_options := {| enableHighAccuracy := true; timeout := TIMEOUT;
                           maximumAge := 0; distanceFilter := Some 0 |} |}.

Definition movement_request (c : call) : request :=
  {| success := OnUpdate c; error_callback := c;
     request_options := {| enableHighAccuracy := true; timeout := TIMEOUT;
                           maximumAge := 0; distanceFilter := Some MIN_DISTANCE |} |}.

(** ** Shapes of traces and states *)

Definition is_start (e : event) : bool :=
  match e with StartObserving _ => true | _ => false end.

Definition is_settle (e : event) : bool :=
  match e with PermissionSettled _ _ => true | _ => false end.


(** No call of [startObserving] is made while an earlier one is still
    suspended at the permission request. *)
Fixpoint sequential (s : state) (tr : list event) : bool :=
  match tr with
  | [] => true
  | e :: tr' =>
      (if is_start e then bool_decide (awaiting s = []) else true)
      && sequential (fst (step s e)) tr'
  end.

(** The value of the first [onLocation] call among some actions. *)
Fixpoint first_location (l : list action) : option value :=
  match l with
  | [] => None
  | Location _ v :: _ => Some v
  | _ :: l' => first_location l'
  end.

(** A subscription created with the movement filter: the switch to the
    movement-gated mode. *)
Definition is_switch (a : action) : bool :=
  match a with
  | WatchPosition _ o => bool_decide (distanceFilter o = Some MIN_DISTANCE)
  | _ => false
  end.

Definition switches (l : list action) : nat := length (List.filter is_switch l).

(** The session is the only user of the driver: every subscription is the
    one [watchId] names, single-shot requests call [onUpdate], and nothing is
    subscribed or suspended in a way the guard of [startObserving] misses. *)
Record tracked (s : state) : Prop := {
  tracked_awaiting : awaiting s = [] ∨ (started s = false ∧ ∃ c, awaiting s = [c]);
  tracked_idle : started s = false → watchId s = None;
  tracked_watches : ∀ id r, watches s !! id = Some r → watchId s = Some id;
  tracked_polls : ∀ i r, polls s !! i = Some r → ∃ c, success r = OnUpdate c
}.

(** Request numbers are handed out in increasing order, so the next one is
    not in use. *)
Definition numbered (s : state) : Prop :=
  (∀ i r, polls s !! i = Some r → (i < next_poll s)%nat) ∧
  (∀ id r, watches s !! id = Some r → (id < next_watch s)%nat).

(** What a run has done so far about switching: [n] movement-gated
    subscriptions were created; none before the session started, at most
    one in all, and once there is one no subscription escalates any more. *)
Record switched (s : state) (n : nat) : Prop := {
  switched_tracked : tracked s;
  switched_idle : started s = false → n = 0%nat;
  switched_once : (n ≤ 1)%nat;
  switched_steady : n = 1%nat → ∀ id r, watches s !! id = Some r → ∃ c, success r = OnUpdate c
}.

(** Nothing is registered with the host and the session has not started. *)
Definition idle (s : state) : Prop :=
  started s = false ∧ watchId s = None ∧ listener s = None ∧
  polls s = ∅ ∧ watches s = ∅.

(** Nothing is registered that could call back. *)
Definition silent (s : state) : Prop :=
  polls s = ∅ ∧ watches s = ∅ ∧ listener s = None.


Ltac find_in_list :=
  vm_compute; repeat (first [left; reflexivity | right]).

(** ** More shapes of events and actions *)

(** The caller a callback belongs to. *)
Definition callback_call (cb : success_callback) : call :=
  match cb with
  | OnUpdate c | UntilAccurate c => c
  end.

(** The caller an action answers: the owner of the callback invoked or of
    the promise rejected. *)
Definition action_call (a : action) : option call :=
  match a with
  | Location c _ | Failure c _ | Rejected c _ => Some c
  | _ => None
  end.

(** The position is one the driver documents: a [coords] record with a
    numeric [accuracy]. *)
Definition is_fix (v : value) : bool :=
  match fix_radius v with Some _ => true | None => false end.

(** Every position the driver reports in the event is such a fix. *)
Definition reports_fixes (e : event) : bool :=
  match e with
  | PollFix _ p | WatchFix _ p => is_fix p
  | _ => true
  end.

(** The position passes the test [position.coords.accuracy <= MAX_ACCURACY]. *)
Definition accurate (position : value) : bool :=
  match accuracy position with
  | Some a => js_le a threshold
  | None => false
  end.

(** The event can make the session cancel a subscription: a call of
    [stopObserving], or a position that passes the accuracy test. *)
Definition may_cancel (e : event) : bool :=
  match e with
  | StopObserving => true
  | PollFix _ p | WatchFix _ p => accurate p
  | _ => false
  end.

(** The error is one the driver handed over in the event. *)
Definition reports_error (err : error) (e : event) : Prop :=
  match e with
  | PollFailed _ err' | WatchFailed _ err' => err' = err
  | _ => False
  end.

(** The errors the module builds itself. *)
Definition module_error (err : error) : Prop :=
  code err = Some errorCodes.PERMISSION_DENIED ∨
  code err = Some errorCodes.POSITION_UNAVAILABLE ∨
  code err = Some errorCodes.UNKNOWN.

(** Every caller the session could still call back has the property [P]. *)
Definition owned (P : call → Prop) (s : state) : Prop :=
  (∀ c, In c (awaiting s) → P c) ∧
  (∀ c, listener s = Some c → P c) ∧
  (∀ i r, polls s !! i = Some r → P (callback_call (success r)) ∧ P (error_callback r)) ∧
  (∀ id r, watches s !! id = Some r → P (callback_call (success r)) ∧ P (error_callback r)).

(** The requests registered are the ones the three helpers build. *)
Definition shaped (s : state) : Prop :=
  (∀ i r, polls s !! i = Some r → ∃ c, r = initial_request c) ∧
  (∀ id r, watches s !! id = Some r →
     ∃ c, r = until_accurate_request c ∨ r = movement_request c).

(** ** The static constants of the class *)

(** The objects [statusCodes] and [errorCodes]. *)
Definition statusCodes_object : gmap string Z :=
  {[ "SEARCHING" := statusCodes.SEARCHING;
     "LOW_ACCURACY" := statusCodes.LOW_ACCURACY;
     "HIGH_ACCURACY" := statusCodes.HIGH_ACCURACY ]}.

Definition errorCodes_object : gmap string Z :=
  {[ "PERMISSION_DENIED" := errorCodes.PERMISSION_DENIED;
     "POSITION_UNAVAILABLE" := errorCodes.POSITION_UNAVAILABLE;
     "TIMEOUT" := errorCodes.TIMEOUT;
     "UNKNOWN" := errorCodes.UNKNOWN ]}.

(** [Object.assign(target, ...sources)]: the properties of each source are
    written to the target in turn, a later write replacing an earlier one. *)
Definition Object_assign (target : gmap string Z) (sources : list (gmap string Z))
  : gmap string Z :=
  foldl (λ t src, src ∪ t) target sources.

(** The constants [Object.assign(GeoLocation, statusCodes, errorCodes)] adds
    to the class. *)
Definition GeoLocation_constants : gmap string Z :=
  Object_assign ∅ [statusCodes_object; errorCodes_object].

(** ** The example screen ([App.js]) *)

(** [this.state] of the component [GeolocationExample]: the fields
    [position], [error] ([None] is [null]) and [count]. *)
Record component_state : Type := {
  state_position : string;
  state_error : option string;
  state_count : Z
}.

(** The state its constructor sets. *)
Definition initial_component_state : component_state :=
  {| state_position := "unknown"; state_error := None; state_count := 0 |}.

(** [err.code] as string concatenation prints it, for the codes the module
    documents ([PositionError.code] is an unsigned short): an integer code
    below 65536 in decimal, a missing one as ["undefined"].  The properties
    below use it in that range only; from 1e21 on JavaScript prints a number
    in exponent notation, which this definition does not follow. *)
Definition code_text (c : option Z) : string :=
  match c with
  | Some z => pretty z
  | None => "undefined"
  end.

Section Screen.

(** [JSON.stringify], a built-in that is not part of the source. *)
Variable JSON_stringify : value → string.

(** The first callback given to [startObserving]:
    [setState({position: JSON.stringify(position), error: null})], as it
    takes effect while the component is mounted (React ignores [setState]
    on an unmounted component). *)
Definition show_position (position : value) (st : component_state) : component_state :=
  {| state_position := JSON_stringify position; state_error := None;
     state_count := state_count st |}.

(** The second callback, likewise while the component is mounted:
    [setState({error: 'ERROR(' + err.code + '): ' + err.message, position: 'unknown'})]. *)
Definition show_error (err : error) (st : component_state) : component_state :=
  {| state_position := "unknown";
     state_error := Some ("ERROR(" +:+ code_text (code err) +:+ "): " +:+ message err);
     state_count := state_count st |}.

(** The effect on the mounted component whose callbacks are the pair [c] of
    one action of the session, and of a list of them in order. *)
Definition render_action (c : call) (st : component_state) (a : action) : component_state :=
  match a with
  | Location c' position => if decide (c' = c) then show_position position st else st
  | Failure c' err => if decide (c' = c) then show_error err st else st
  | _ => st
  end.

Definition render_actions (c : call) (st : component_state) (l : list action)
  : component_state :=
  foldl (render_action c) st l.

End Screen.

(** [componentDidMount]: a new [GeoLocation] ([started] false, [watchId]
    unset, on the host as it is) and a call of its [startObserving] with the
    component's callbacks. *)
Definition componentDidMount (c : call) (s : state) : state * list action :=
  startObserving c (set_watchId None (set_started false s)).

(** [componentWillUnmount]. *)
Definition componentWillUnmount (s : state) : state * list action :=
  stopObserving s.

(** * Properties *)

(** ** Comparisons with the threshold *)

Lemma js_gt_finite (q : Q) :
  js_gt (Finite q) threshold = true ↔ (inject_Z MAX_ACCURACY < q)%Q.
Proof.
  unfold js_gt, threshold, IsLessThan. rewrite Qlt_alt.
  destruct (inject_Z MAX_ACCURACY ?= q)%Q; split; congruence.
Qed.

Lemma js_le_finite (q : Q) :
  js_le (Finite q) threshold = true ↔ (q <= inject_Z MAX_ACCURACY)%Q.
Proof.
  unfold js_le, threshold, IsLessThan. rewrite Qle_alt, <- Qgt_alt, Qlt_alt.
  destruct (inject_Z MAX_ACCURACY ?= q)%Q; split; congruence.
Qed.

Lemma js_le_not_gt (n : number) :
  js_le n threshold = true → js_gt n threshold = false.
Proof.
  unfold js_le, js_gt. destruct (IsLessThan threshold n) as [[|]|]; congruence.
Qed.

(** ** The status derivation *)

(** [onUpdate] delivers either the synthetic update (falsy argument) or the
    argument itself, an object, with [status] written from its accuracy. *)
Lemma onUpdate_inv (position v : value) :
  onUpdate position = Some v →
  (truthy position = false ∧ v = searching) ∨
  (∃ props a, position = VObj props ∧ accuracy position = Some a ∧
     v = VObj (<["status" := num (if js_gt a threshold
                                  then statusCodes.LOW_ACCURACY
                                  else statusCodes.HIGH_ACCURACY)]> props)).
Proof.
  unfold onUpdate. destruct (truthy position) eqn:Ht; simpl.
  - destruct (accuracy position) as [a|] eqn:Ha; simpl; [|discriminate].
    intros H. right. destruct position as [| | b | n | props];
      try (destruct (js_gt a threshold); discriminate).
    exists props, a. split; [reflexivity|]. split; [reflexivity|].
    destruct (js_gt a threshold); injection H as <-; reflexivity.
  - intros H. left. split; [reflexivity|]. injection H as <-. reflexivity.
Qed.

Lemma accuracy_of_fix (props : gmap string value) (n : number) :
  fix_radius (VObj props) = Some n → accuracy (VObj props) = Some n.
Proof.
  unfold fix_radius, accuracy. simpl.
  destruct (props !! "coords") as [[| | | | c]|]; try discriminate. simpl.
  destruct (c !! "accuracy") as [[| | | m |]|]; try discriminate. simpl. congruence.
Qed.



Lemma callOnUpdate_undefined (c : call) :
  callOnUpdate c VUndefined = [Location c searching].
Proof. reflexivity. Qed.





(** ** The permission gate *)

(** C5.  [requestLocationPermission] succeeds exactly when the request
    resolves with the coarse-location scope granted, whatever the answer for
    the fine scope; when the coarse scope is not granted it throws the error
    with code PERMISSION_DENIED (1) and message "Location permission denied by
    user"; when the request raises it throws an error with code UNKNOWN (4)
    and the message of the host's exception. *)
Theorem permission_gate (r : settled) :
  (requestLocationPermission r = Returns ↔
     ∃ granted, r = Resolved granted ∧
                granted !! ACCESS_COARSE_LOCATION = Some "granted") ∧
  (∀ granted fine,
     requestLocationPermission (Resolved (<[ACCESS_FINE_LOCATION := fine]> granted)) =
     requestLocationPermission (Resolved (delete ACCESS_FINE_LOCATION granted)) ∧
     requestLocationPermission (Resolved (delete ACCESS_FINE_LOCATION granted)) =
     requestLocationPermission (Resolved granted)) ∧
  (∀ granted, r = Resolved granted →
     granted !! ACCESS_COARSE_LOCATION ≠ Some "granted" →
     requestLocationPermission r =
       Throws {| message := "Location permission denied by user";
                 code := Some errorCodes.PERMISSION_DENIED |}) ∧
  (∀ err, r = Raised err →
     requestLocationPermission r =
       Throws {| message := message err; code := Some errorCodes.UNKNOWN |}).
Proof.
  split; [|split; [|split]].
  - destruct r as [granted|err]; simpl.
    + destruct (decide (granted !! ACCESS_COARSE_LOCATION = Some "granted")) as [Hg|Hg].
      * split; [eauto | reflexivity].
      * split; [discriminate|]. intros (g & Hr & Hc). injection Hr as <-. contradiction.
    + split; [discriminate|]. intros (g & Hr & _). discriminate.
  - intros granted fine. unfold requestLocationPermission.
    rewrite lookup_insert_ne by discriminate.
    rewrite lookup_delete_ne by discriminate. split; reflexivity.
  - intros granted -> Hg. simpl.
    destruct (decide (granted !! ACCESS_COARSE_LOCATION = Some "granted")); [contradiction|].
    reflexivity.
  - intros err ->. reflexivity.
Qed.

Lemma permission_gate_witness :
  requestLocationPermission granted_coarse_only = Returns ∧
  requestLocationPermission denied_both =
    Throws {| message := "Location permission denied by user";
              code := Some errorCodes.PERMISSION_DENIED |} ∧
  requestLocationPermission (Raised (Error "no activity")) =
    Throws {| message := "no activity"; code := Some errorCodes.UNKNOWN |}.
Proof.
  split; [|split].
  - apply (proj1 (permission_gate granted_coarse_only)).
    eexists. split; reflexivity.
  - apply (proj1 (proj2 (proj2 (permission_gate denied_both))) _ eq_refl).
    vm_compute. discriminate.
  - apply (proj2 (proj2 (proj2 (permission_gate (Raised (Error "no activity"))))) _ eq_refl).
Defined.

(** ** Totality of the status derivation *)

Lemma truthy_lacking_coords (position : value) :
  truthy position = true → get position "coords" = Some VUndefined →
  onUpdate position = None.
Proof.
  intros Ht Hc. unfold onUpdate, accuracy. rewrite Ht, Hc. reflexivity.
Qed.

Lemma onUpdate_faults_iff (position : value) :
  onUpdate position = None ↔ truthy position = true ∧ accuracy position = None.
Proof.
  unfold onUpdate. destruct (truthy position) eqn:Ht; simpl.
  - destruct (accuracy position) as [a|] eqn:Ha; simpl.
    + split; [|intros [_ H]; discriminate].
      unfold accuracy in Ha.
      destruct position as [| | b | n | props]; simpl in Ha; try discriminate.
      destruct (js_gt a threshold); discriminate.
    + split; auto.
  - split; [discriminate | intros [H _]; discriminate].
Qed.

(** C9 (as the code has it).  [onUpdate] reads [position.coords.accuracy] for
    every truthy argument.  It delivers for every falsy argument; it faults for
    every truthy argument that lacks [coords]; it faults exactly when the
    argument is truthy and the read or its conversion to a number raises; and
    it delivers for every object whose [coords] is a record, also one without
    an [accuracy] field, as long as [accuracy] is not itself an object. *)
Theorem onUpdate_totality (position : value) :
  (truthy position = false → onUpdate position = Some searching) ∧
  (truthy position = true → get position "coords" = Some VUndefined →
     onUpdate position = None) ∧
  (onUpdate position = None ↔ truthy position = true ∧ accuracy position = None) ∧
  (∀ props c, position = VObj props → props !! "coords" = Some (VObj c) →
     (∀ o, c !! "accuracy" ≠ Some (VObj o)) →
     ∃ v, onUpdate position = Some v).
Proof.
  split; [|split; [|split]].
  - intros Ht. unfold onUpdate. rewrite Ht. reflexivity.
  - apply truthy_lacking_coords.
  - apply onUpdate_faults_iff.
  - intros props c -> Hc Hacc.
    destruct (onUpdate (VObj props)) as [v|] eqn:Hu; [eauto|].
    apply onUpdate_faults_iff in Hu as [_ Hu]. exfalso.
    unfold accuracy in Hu. simpl in Hu. rewrite Hc in Hu. simpl in Hu.
    destruct (c !! "accuracy") as [[| | b | n | o]|]; simpl in Hu; try discriminate.
    eapply Hacc; reflexivity.
Qed.

Lemma onUpdate_totality_witness :
  onUpdate VNull = Some searching ∧
  onUpdate (VObj {[ "timestamp" := num 7 ]}) = None ∧
  (∃ v, onUpdate (VObj {[ "coords" := VObj ∅ ]}) = Some v).
Proof.
  split; [|split].
  - apply (proj1 (onUpdate_totality VNull)). reflexivity.
  - apply (proj1 (proj2 (onUpdate_totality (VObj {[ "timestamp" := num 7 ]})))).
    + reflexivity.
    + reflexivity.
  - apply (proj2 (proj2 (proj2 (onUpdate_totality (VObj {[ "coords" := VObj ∅ ]}))))
             {[ "coords" := VObj ∅ ]} ∅ eq_refl).
    + reflexivity.
    + intros o. vm_compute. discriminate.
Defined.

(** C9 as the specification words it fails: a truthy position whose [coords]
    record has no [accuracy] field is not a fault; [undefined > 10] is false
    and the update is delivered with status HIGH_ACCURACY. *)
Lemma onUpdate_total_without_accuracy :
  ¬ (∀ position v, onUpdate position = Some v →
       truthy position = false ∨
       ∃ props c a, position = VObj props ∧ props !! "coords" = Some (VObj c) ∧
                    c !! "accuracy" = Some a).
Proof.
  intros H.
  assert (Hu : onUpdate (VObj {[ "coords" := VObj ∅ ]}) =
               Some (VObj {[ "coords" := VObj ∅;
                             "status" := num statusCodes.HIGH_ACCURACY ]}))
    by (vm_compute; reflexivity).
  destruct (H _ _ Hu) as [Ht|(props & c & a & Hp & Hc & Ha)].
  - discriminate.
  - injection Hp as <-. vm_compute in Hc. injection Hc as <-. discriminate.
Qed.

(** ** The service-availability listener *)

Lemma numbered_insert (m : gmap nat request) (n j : nat) (x r : request) :
  (∀ i r, m !! i = Some r → (i < n)%nat) →
  <[n := x]> m !! j = Some r → (j < S n)%nat.
Proof.
  intros Hm Hj. apply lookup_insert_Some in Hj as [[<- _]|[_ Hj]]; [lia|].
  apply Hm in Hj. lia.
Qed.

Lemma numbered_delete (m : gmap nat request) (n k j : nat) (r : request) :
  (∀ i r, m !! i = Some r → (i < n)%nat) →
  delete k m !! j = Some r → (j < n)%nat.
Proof. intros Hm Hj. apply lookup_delete_Some in Hj as [_ Hj]. eauto. Qed.

Lemma invoke_numbered (cb : success_callback) (position : value) (s : state) :
  numbered s → numbered (fst (invoke cb position s)).
Proof.
  intros [Hp Hw]. destruct cb as [c|c]; simpl; [split; assumption|].
  unfold untilAccurate. destruct (accuracy position); [|split; assumption].
  destruct (js_le _ _); [|split; assumption].
  unfold clearWatch. destruct (watchId s) as [id|]; simpl; split; simpl; try assumption.
  - intros j r Hj. eapply numbered_insert; [|exact Hj].
    intros i r0 Hi. eapply numbered_delete; eassumption.
  - intros j r Hj. eapply numbered_insert; eassumption.
Qed.

Lemma step_numbered (s : state) (e : event) : numbered s → numbered (fst (step s e)).
Proof.
  intros Hn. pose proof Hn as [Hp Hw].
  destruct e as [c| |c r|i p|i err|id p|id err|status]; simpl.
  - unfold startObserving. destruct (started s); exact Hn.
  - unfold stopObserving. destruct (watchId s) as [id|]; [|exact Hn].
    split; simpl; [exact Hp|]. intros j r Hj. eapply numbered_delete; eassumption.
  - destruct (resume c (awaiting s)) as [l|]; [|exact Hn].
    unfold startObserving_resume. destruct (requestLocationPermission r); [|exact Hn].
    split; simpl; intros j r0 Hj; eapply numbered_insert; eassumption.
  - destruct (polls s !! i) as [r|]; [|exact Hn]. apply invoke_numbered.
    split; simpl; [|exact Hw]. intros j r0 Hj. eapply numbered_delete; eassumption.
  - destruct (polls s !! i) as [r|]; [|exact Hn].
    split; simpl; [|exact Hw]. intros j r0 Hj. eapply numbered_delete; eassumption.
  - destruct (watches s !! id) as [r|]; [|exact Hn]. apply invoke_numbered. exact Hn.
  - destruct (watches s !! id) as [r|]; exact Hn.
  - destruct (listener s) as [c|]; [|exact Hn]. unfold gpsListener.
    assert (Hpoll : numbered (fst (getInitialPosition (OnUpdate c) c s))).
    { split; simpl; [|exact Hw]. intros j r0 Hj. eapply numbered_insert; eassumption. }
    destruct (decide (status = AUTHORIZED)); destruct (decide (status ≠ RESTRICTED));
      simpl; assumption.
Qed.

Lemma run_numbered (s : state) (tr : list event) : numbered s → numbered (fst (run s tr)).
Proof.
  revert s. induction tr as [|e tr IH]; intros s Hn; simpl; [exact Hn|].
  pose proof (step_numbered s e Hn) as H1. destruct (step s e) as [s1 a1].
  pose proof (IH s1 H1) as H2. destruct (run s1 tr) as [s2 a2]. exact H2.
Qed.

Lemma numbered_constructor : numbered constructor.
Proof. split; intros i r H; simpl in H; rewrite lookup_empty in H; discriminate. Qed.

(** C8.  While the listener of call [c] is registered, a status equal to
    AUTHORIZED registers exactly one low-accuracy [getCurrentPosition] request
    (one more pending request than before) and calls [onLocation] once with
    the SEARCHING update, changing nothing else; a status equal to RESTRICTED
    calls [onError] once with code POSITION_UNAVAILABLE (2) and leaves the
    whole state, subscriptions and listener included, as it was; any other
    status does nothing. *)
Theorem service_signal (s : state) (c : call) (status : gps_status) :
  listener s = Some c →
  (status = AUTHORIZED →
     step s (GPSStatus status) =
       (set_polls (<[next_poll s := initial_request c]> (polls s)) (S (next_poll s)) s,
        [GetCurrentPosition (next_poll s) (request_options (initial_request c));
         Location c searching]) ∧
     enableHighAccuracy (request_options (initial_request c)) = false ∧
     (numbered s →
      size (polls (fst (step s (GPSStatus status)))) = S (size (polls s)))) ∧
  (status = RESTRICTED →
     step s (GPSStatus status) =
       (s, [Failure c {| message := "Location services are turned off";
                         code := Some errorCodes.POSITION_UNAVAILABLE |}])) ∧
  (status ≠ AUTHORIZED → status ≠ RESTRICTED → step s (GPSStatus status) = (s, [])).
Proof.
  intros Hl. simpl. rewrite Hl. unfold gpsListener. split; [|split].
  - intros ->. split; [reflexivity|]. split; [reflexivity|].
    intros [Hp _]. simpl. apply map_size_insert_None.
    destruct (polls s !! next_poll s) as [r|] eqn:Hr; [|reflexivity].
    apply Hp in Hr. lia.
  - intros ->. reflexivity.
  - intros Ha Hr.
    destruct (decide (status = AUTHORIZED)); [contradiction|].
    destruct (decide (status ≠ RESTRICTED)); [reflexivity | contradiction].
Qed.

Lemma service_signal_witness :
  let s := fst (run constructor [StartObserving 0%nat; PermissionSettled 0%nat granted_both]) in
  listener s = Some 0%nat ∧ numbered s ∧
  step s (GPSStatus RESTRICTED) =
    (s, [Failure 0%nat {| message := "Location services are turned off";
                          code := Some errorCodes.POSITION_UNAVAILABLE |}]) ∧
  snd (step s (GPSStatus AUTHORIZED)) =
    [GetCurrentPosition 1 (request_options (initial_request 0%nat));
     Location 0%nat searching] ∧
  size (polls (fst (step s (GPSStatus AUTHORIZED)))) = S (size (polls s)) ∧
  step s (GPSStatus (OtherStatus 2)) = (s, []).
Proof.
  intros s.
  assert (Hl : listener s = Some 0%nat) by reflexivity.
  assert (Hn : numbered s) by (apply run_numbered, numbered_constructor).
  split; [exact Hl|]. split; [exact Hn|]. split; [|split; [|split]].
  - apply (proj1 (proj2 (service_signal s 0%nat RESTRICTED Hl)) eq_refl).
  - rewrite (proj1 (proj1 (service_signal s 0%nat AUTHORIZED Hl) eq_refl)). reflexivity.
  - apply (proj2 (proj2 (proj1 (service_signal s 0%nat AUTHORIZED Hl) eq_refl)) Hn).
  - apply (proj2 (proj2 (service_signal s 0%nat (OtherStatus 2) Hl))); discriminate.
Defined.

(** ** The [started] flag *)

Lemma invoke_started (cb : success_callback) (position : value) (s : state) :
  started (fst (invoke cb position s)) = started s.
Proof.
  destruct cb as [c|c]; simpl; [reflexivity|].
  unfold untilAccurate. destruct (accuracy position); [|reflexivity].
  destruct (js_le _ _); [|reflexivity].
  unfold clearWatch. destruct (watchId s); reflexivity.
Qed.

(** No event clears [started]. *)
Lemma step_started (s : state) (e : event) :
  started s = true → started (fst (step s e)) = true.
Proof.
  intros Hs. destruct e as [c| |c r|i p|i err|id p|id err|status]; simpl.
  - unfold startObserving. rewrite Hs. exact Hs.
  - unfold stopObserving. destruct (watchId s); exact Hs.
  - destruct (resume c (awaiting s)); [|exact Hs].
    unfold startObserving_resume. destruct (requestLocationPermission r); [reflexivity | exact Hs].
  - destruct (polls s !! i); [|exact Hs]. rewrite invoke_started. exact Hs.
  - destruct (polls s !! i); exact Hs.
  - destruct (watches s !! id); [|exact Hs]. rewrite invoke_started. exact Hs.
  - destruct (watches s !! id); exact Hs.
  - destruct (listener s); [|exact Hs]. unfold gpsListener.
    destruct (decide (status = AUTHORIZED)); destruct (decide (status ≠ RESTRICTED)); exact Hs.
Qed.

Lemma run_started (s : state) (tr : list event) :
  started s = true → started (fst (run s tr)) = true.
Proof.
  revert s. induction tr as [|e tr IH]; intros s Hs; simpl; [exact Hs|].
  pose proof (step_started s e Hs) as H1. destruct (step s e) as [s1 a1].
  pose proof (IH s1 H1) as H2. destruct (run s1 tr) as [s2 a2]. exact H2.
Qed.

Lemma resume_started (c : call) (r : settled) (s : state) :
  requestLocationPermission r = Returns →
  started (fst (startObserving_resume c r s)) = true.
Proof. intros Hr. unfold startObserving_resume. rewrite Hr. reflexivity. Qed.

(** C4 (as the code has it).  Once the [started] flag is set, that is once a
    call of [startObserving] has passed the permission gate, every later call
    on the instance, after any further events ([stopObserving] included),
    rejects with [Error "Called startObserving more than once"], an error
    without a [code] (so not a PositionError), and changes nothing. *)
Theorem second_start_rejected (s : state) (tr : list event) (c : call) :
  (started s = true →
     step (fst (run s tr)) (StartObserving c) =
       (fst (run s tr), [Rejected c (Error "Called startObserving more than once")])) ∧
  (∀ c0 r l, resume c0 (awaiting s) = Some l → requestLocationPermission r = Returns →
     step (fst (run s (PermissionSettled c0 r :: tr))) (StartObserving c) =
       (fst (run s (PermissionSettled c0 r :: tr)),
        [Rejected c (Error "Called startObserving more than once")])) ∧
  code (Error "Called startObserving more than once") = None.
Proof.
  assert (Hgen : ∀ s0, started s0 = true →
            step (fst (run s0 tr)) (StartObserving c) =
            (fst (run s0 tr), [Rejected c (Error "Called startObserving more than once")])).
  { intros s0 Hs. simpl. unfold startObserving. rewrite (run_started s0 tr Hs). reflexivity. }
  split; [apply Hgen|]. split; [|reflexivity].
  intros c0 r l Hres Hr.
  pose proof (resume_started c0 r (set_awaiting l s) Hr) as Hst.
  cbn [run]. cbn [step]. rewrite Hres.
  destruct (startObserving_resume c0 r (set_awaiting l s)) as [s1 a1]. simpl in Hst.
  pose proof (Hgen s1 Hst) as H. destruct (run s1 tr) as [s2 a2]. exact H.
Qed.

Lemma second_start_rejected_witness :
  let s := fst (run constructor [StartObserving 0%nat]) in
  resume 0%nat (awaiting s) = Some [] ∧
  requestLocationPermission granted_both = Returns ∧
  snd (step (fst (run s [PermissionSettled 0%nat granted_both; StopObserving]))
            (StartObserving 1%nat)) =
    [Rejected 1%nat (Error "Called startObserving more than once")].
Proof.
  intros s. split; [reflexivity|]. split; [reflexivity|].
  rewrite (proj1 (proj2 (second_start_rejected s [StopObserving] 1%nat))
             0%nat granted_both [] eq_refl eq_refl).
  reflexivity.
Defined.

(** C4 as the specification words it fails: after a first call that failed
    at the permission gate, [started] is still false and a second call is not
    rejected; it requests the permission again. *)
Lemma second_start_after_denial_not_rejected :
  ¬ (∀ tr c c', In (StartObserving c) tr →
       ∃ err, In (Rejected c' err)
                 (snd (step (fst (run constructor tr)) (StartObserving c')))).
Proof.
  intros H.
  destruct (H [StartObserving 0%nat; PermissionSettled 0%nat denied_both] 0%nat 1%nat)
    as [err Herr].
  - left. reflexivity.
  - vm_compute in Herr. destruct Herr as [Herr|[]]. discriminate.
Qed.

(** The retried call then starts the session as a first call would. *)
Example retry_after_denial_starts :
  let s := fst (run constructor [StartObserving 0%nat; PermissionSettled 0%nat denied_both;
                                 StartObserving 1%nat; PermissionSettled 1%nat granted_both]) in
  started s = true ∧ watchId s = Some 0%nat ∧ listener s = Some 1%nat.
Proof. vm_compute. repeat split. Qed.

(** ** [stopObserving] and the session fields *)

(** C10.  [stopObserving] leaves [started] and [watchId] as they were.  So
    after a stop of a started session, [startObserving] is still rejected as a
    double start, and a second [stopObserving] again calls [clearWatch] with
    the same, stale, identifier and [removeListener], instead of returning at
    the guard. *)
Theorem stopObserving_keeps_fields (s : state) :
  started (fst (step s StopObserving)) = started s ∧
  watchId (fst (step s StopObserving)) = watchId s ∧
  (∀ c, started s = true →
     step (fst (step s StopObserving)) (StartObserving c) =
       (fst (step s StopObserving),
        [Rejected c (Error "Called startObserving more than once")])) ∧
  (∀ id, watchId s = Some id →
     snd (step s StopObserving) = [ClearWatch (Some id); RemoveListener] ∧
     snd (step (fst (step s StopObserving)) StopObserving) =
       [ClearWatch (Some id); RemoveListener]).
Proof.
  simpl. unfold stopObserving.
  destruct (watchId s) as [id|] eqn:Hw; simpl.
  - split; [reflexivity|]. split; [exact Hw|]. split.
    + intros c Hs. unfold startObserving. simpl. rewrite Hs. reflexivity.
    + intros id' [= <-]. rewrite Hw. split; reflexivity.
  - split; [reflexivity|]. split; [exact Hw|]. split.
    + intros c Hs. unfold startObserving. rewrite Hs. reflexivity.
    + intros id' [=].
Qed.

Lemma stopObserving_keeps_fields_witness :
  let s := fst (run constructor [StartObserving 0%nat; PermissionSettled 0%nat granted_both]) in
  started s = true ∧ watchId s = Some 0%nat ∧
  snd (step (fst (step s StopObserving)) (StartObserving 1%nat)) =
    [Rejected 1%nat (Error "Called startObserving more than once")] ∧
  snd (step (fst (step s StopObserving)) StopObserving) =
    [ClearWatch (Some 0%nat); RemoveListener].
Proof.
  intros s. split; [reflexivity|]. split; [reflexivity|]. split.
  - rewrite (proj1 (proj2 (proj2 (stopObserving_keeps_fields s))) 1%nat eq_refl).
    reflexivity.
  - apply (proj2 (proj2 (proj2 (stopObserving_keeps_fields s))) 0%nat eq_refl).
Defined.

(** ** A start that fails at the permission gate *)

Lemma idle_step (s : state) (e : event) :
  idle s → is_start e = false → is_settle e = false ∨ awaiting s = [] →
  step s e = (s, []).
Proof.
  intros (Hs & Hw & Hl & Hp & Hwa) He Hse.
  destruct e as [c| |c r|i p|i err|id p|id err|status]; simpl in *; try discriminate.
  - unfold stopObserving. rewrite Hw. reflexivity.
  - destruct Hse as [Hse|Hse]; [discriminate|]. rewrite Hse. reflexivity.
  - rewrite Hp, lookup_empty. reflexivity.
  - rewrite Hp, lookup_empty. reflexivity.
  - rewrite Hwa, lookup_empty. reflexivity.
  - rewrite Hwa, lookup_empty. reflexivity.
  - rewrite Hl. reflexivity.
Qed.

Lemma idle_run_suspended (s : state) (tr : list event) :
  idle s → forallb (λ e, negb (is_start e) && negb (is_settle e)) tr = true →
  run s tr = (s, []).
Proof.
  intros Hi. induction tr as [|e tr IH]; simpl; [reflexivity|].
  intros H. apply andb_true_iff in H as [He Htr]. apply andb_true_iff in He as [H1 H2].
  apply negb_true_iff in H1, H2.
  rewrite (idle_step s e Hi H1 (or_introl H2)), (IH Htr). reflexivity.
Qed.

Lemma idle_run_settled (s : state) (tr : list event) :
  idle s → awaiting s = [] → forallb (λ e, negb (is_start e)) tr = true →
  run s tr = (s, []).
Proof.
  intros Hi Ha. induction tr as [|e tr IH]; simpl; [reflexivity|].
  intros H. apply andb_true_iff in H as [He Htr]. apply negb_true_iff in He.
  rewrite (idle_step s e Hi He (or_intror Ha)), (IH Htr). reflexivity.
Qed.

Lemma run_app (s : state) (tr1 tr2 : list event) :
  run s (tr1 ++ tr2) =
  (fst (run (fst (run s tr1)) tr2), snd (run s tr1) ++ snd (run (fst (run s tr1)) tr2)).
Proof.
  revert s. induction tr1 as [|e tr1 IH]; intros s; simpl.
  - destruct (run s tr2); reflexivity.
  - destruct (step s e) as [s1 a1]. rewrite IH.
    destruct (run s1 tr1) as [s2 a2]. simpl.
    destruct (run s2 tr2) as [s3 a3]. simpl. rewrite app_assoc. reflexivity.
Qed.

(** C6 (as the code has it).  When the permission gate fails with [err] for a suspended
    [startObserving] call, resuming the call does exactly one thing: it calls
    [onError err]; the promise is not rejected, [onLocation] is not called,
    and [started], [watchId], the listener and the driver's requests stay as
    they were.  And on a session that has not started, when that call is the
    only call of [startObserving], then whatever else happens before and
    after the request settles, the actions of the whole run are the
    permission request followed by that single [onError err], and the session
    ends as it began: not started, nothing registered. *)
Theorem failed_permission_is_terminal (c : call) (r : settled) (err : error) :
  requestLocationPermission r = Throws err →
  (∀ s l, resume c (awaiting s) = Some l →
     step s (PermissionSettled c r) = (set_awaiting l s, [Failure c err])) ∧
  (∀ s mid post,
     idle s → awaiting s = [] →
     forallb (λ e, negb (is_start e) && negb (is_settle e)) mid = true →
     forallb (λ e, negb (is_start e)) post = true →
     run s (StartObserving c :: mid ++ PermissionSettled c r :: post) =
       (s, [RequestMultiple [ACCESS_FINE_LOCATION; ACCESS_COARSE_LOCATION];
            Failure c err])).
Proof.
  intros Hr. split.
  - intros s l Hres. simpl. rewrite Hres. unfold startObserving_resume. rewrite Hr.
    reflexivity.
  - intros s mid post Hi Ha Hmid Hpost.
    destruct Hi as (Hs & Hw & Hl & Hp & Hwa).
    destruct s as [st wid aw li po wa np nw]. simpl in *. subst.
    set (s0 := {| started := false; watchId := None; awaiting := []; listener := None;
                  polls := ∅; watches := ∅; next_poll := np; next_watch := nw |}).
    set (s1 := set_awaiting [c] s0).
    assert (Hi1 : idle s1) by (repeat split).
    assert (Hi0 : idle s0) by (repeat split).
    cbn [run step].
    change (startObserving c s0)
      with (s1, [RequestMultiple [ACCESS_FINE_LOCATION; ACCESS_COARSE_LOCATION]]).
    cbv beta iota.
    rewrite run_app, (idle_run_suspended s1 mid Hi1 Hmid). simpl fst. simpl snd.
    cbn [run step]. simpl awaiting.
    destruct (decide (c = c)) as [_|Hne]; [|contradiction]. simpl.
    unfold startObserving_resume. rewrite Hr.
    change (set_awaiting [] s1) with s0.
    rewrite (idle_run_settled s0 post Hi0 eq_refl Hpost). reflexivity.
Qed.

Lemma failed_permission_is_terminal_witness :
  requestLocationPermission denied_both =
    Throws (createError errorMessages.PERMISSION_DENIED errorCodes.PERMISSION_DENIED) ∧
  idle constructor ∧
  run constructor
      (StartObserving 0%nat :: [GPSStatus AUTHORIZED; StopObserving] ++
       PermissionSettled 0%nat denied_both :: [WatchFix 0%nat (position_with_accuracy 5)]) =
    (constructor,
     [RequestMultiple [ACCESS_FINE_LOCATION; ACCESS_COARSE_LOCATION];
      Failure 0%nat (createError errorMessages.PERMISSION_DENIED
                                 errorCodes.PERMISSION_DENIED)]).
Proof.
  assert (Hr : requestLocationPermission denied_both =
    Throws (createError errorMessages.PERMISSION_DENIED errorCodes.PERMISSION_DENIED))
    by reflexivity.
  assert (Hi : idle constructor) by (repeat split).
  split; [exact Hr|]. split; [exact Hi|].
  apply (proj2 (failed_permission_is_terminal 0%nat denied_both _ Hr) constructor
           [GPSStatus AUTHORIZED; StopObserving]
           [WatchFix 0%nat (position_with_accuracy 5)] Hi eq_refl);
    reflexivity.
Defined.

(** C6 as the specification words it fails: a failed permission request does
    not keep the session from running for good.  [started] stays false, so a
    later [startObserving] call passes the guard, and when its request is
    granted the session starts and [onLocation] is called. *)
Lemma failed_permission_then_retry_runs :
  ¬ (∀ tr c r err post,
       In c (awaiting (fst (run constructor tr))) →
       requestLocationPermission r = Throws err →
       started (fst (run constructor (tr ++ PermissionSettled c r :: post))) = false ∧
       first_location (snd (run constructor (tr ++ PermissionSettled c r :: post))) = None).
Proof.
  intros H.
  destruct (H [StartObserving 0%nat] 0%nat denied_both
              (createError errorMessages.PERMISSION_DENIED errorCodes.PERMISSION_DENIED)
              [StartObserving 0%nat; PermissionSettled 0%nat granted_both])
    as [Hst _].
  - left. reflexivity.
  - reflexivity.
  - vm_compute in Hst. discriminate Hst.
Qed.

(** ** The first update *)

Lemma first_location_app (l1 l2 : list action) :
  first_location (l1 ++ l2) =
  match first_location l1 with
  | Some v => Some v
  | None => first_location l2
  end.
Proof.
  induction l1 as [|a l1 IH]; simpl; [reflexivity|].
  destruct a; auto.
Qed.

Lemma silent_step (s : state) (e : event) :
  silent s →
  (first_location (snd (step s e)) = None ∧ silent (fst (step s e))) ∨
  first_location (snd (step s e)) = Some searching.
Proof.
  intros (Hp & Hw & Hl).
  destruct e as [c| |c r|i p|i err|id p|id err|status]; simpl.
  - left. unfold startObserving. destruct (started s); simpl; repeat split; assumption.
  - left. unfold stopObserving. destruct (watchId s) as [id|]; simpl.
    + repeat split; try assumption. rewrite Hw. apply delete_empty.
    + repeat split; assumption.
  - destruct (resume c (awaiting s)) as [l|]; simpl.
    + unfold startObserving_resume. destruct (requestLocationPermission r); simpl.
      * right. reflexivity.
      * left. repeat split; assumption.
    + left. repeat split; assumption.
  - left. rewrite Hp, lookup_empty. simpl. repeat split; assumption.
  - left. rewrite Hp, lookup_empty. simpl. repeat split; assumption.
  - left. rewrite Hw, lookup_empty. simpl. repeat split; assumption.
  - left. rewrite Hw, lookup_empty. simpl. repeat split; assumption.
  - left. rewrite Hl. simpl. repeat split; assumption.
Qed.

Lemma silent_run (s : state) (tr : list event) :
  silent s →
  first_location (snd (run s tr)) = None ∨
  first_location (snd (run s tr)) = Some searching.
Proof.
  revert s. induction tr as [|e tr IH]; intros s Hs; simpl; [left; reflexivity|].
  pose proof (silent_step s e Hs) as Hstep.
  destruct (step s e) as [s1 a1]. simpl in Hstep.
  destruct Hstep as [[Hnone Hs1]|Hsome].
  - specialize (IH s1 Hs1). destruct (run s1 tr) as [s2 a2]. simpl in *.
    rewrite first_location_app, Hnone. exact IH.
  - destruct (run s1 tr) as [s2 a2]. simpl.
    rewrite first_location_app, Hsome. right. reflexivity.
Qed.

(** C7.  When a suspended [startObserving] call is resumed by a permission
    request that succeeded, the first thing it does is call [onLocation] with
    the synthetic SEARCHING update, which has no [coords]; only then does it
    register the listener and the two driver requests.  And along every run
    of a new session, the first update handed to [onLocation], if there is
    one, is that SEARCHING update. *)
Theorem first_update_is_searching :
  (∀ s c r l, resume c (awaiting s) = Some l → requestLocationPermission r = Returns →
     snd (step s (PermissionSettled c r)) =
       [Location c searching; AddListener c;
        GetCurrentPosition (next_poll s) (request_options (initial_request c));
        WatchPosition (next_watch s) (request_options (until_accurate_request c))]) ∧
  (∀ tr v, first_location (snd (run constructor tr)) = Some v → v = searching) ∧
  has_status searching statusCodes.SEARCHING ∧
  get searching "coords" = Some VUndefined.
Proof.
  split; [|split; [|split; reflexivity]].
  - intros s c r l Hres Hr. simpl. rewrite Hres.
    unfold startObserving_resume. rewrite Hr. reflexivity.
  - intros tr v Hv.
    destruct (silent_run constructor tr) as [H|H]; [repeat split | |]; congruence.
Qed.

Lemma first_update_is_searching_witness :
  let tr := [StartObserving 0%nat; PermissionSettled 0%nat granted_both;
             PollFix 0%nat (position_with_accuracy 50)] in
  first_location (snd (run constructor tr)) = Some searching ∧ searching = searching.
Proof.
  intros tr. split; [reflexivity|].
  apply (proj1 (proj2 first_update_is_searching) tr searching). reflexivity.
Defined.

(** ** One subscription at a time *)

Lemma tracked_constructor : tracked constructor.
Proof.
  split; simpl.
  - left. reflexivity.
  - reflexivity.
  - intros id r H. rewrite lookup_empty in H. discriminate.
  - intros i r H. rewrite lookup_empty in H. discriminate.
Qed.

Lemma tracked_running (s : state) (id : nat) :
  tracked s → watchId s = Some id → started s = true ∧ awaiting s = [].
Proof.
  intros [Ha Hi Hw Hp] Hid.
  assert (Hs : started s = true).
  { destruct (started s); [reflexivity|]. rewrite Hi in Hid by reflexivity. discriminate. }
  split; [exact Hs|]. destruct Ha as [Ha|[Hf _]]; [exact Ha | congruence].
Qed.

Lemma tracked_no_watch (s : state) : tracked s → watchId s = None → watches s = ∅.
Proof.
  intros [_ _ Hw _] Hid. apply map_empty. intros j.
  destruct (watches s !! j) as [r|] eqn:Hj; [|reflexivity].
  apply Hw in Hj. congruence.
Qed.

Lemma tracked_delete (s : state) (id : nat) :
  tracked s → watchId s = Some id → delete id (watches s) = ∅.
Proof.
  intros [_ _ Hw _] Hid. apply map_empty. intros j.
  destruct (delete id (watches s) !! j) as [r|] eqn:Hj; [|reflexivity].
  apply lookup_delete_Some in Hj as [Hne Hj]. apply Hw in Hj. congruence.
Qed.

Lemma tracked_size (s : state) : tracked s → (size (watches s) ≤ 1)%nat.
Proof.
  intros Ht. destruct (watchId s) as [id|] eqn:Hid.
  - destruct (watches s !! id) as [r|] eqn:Hr.
    + rewrite <- (insert_delete_id (watches s) id r Hr), (tracked_delete s id Ht Hid).
      rewrite map_size_insert_None by apply lookup_empty. rewrite map_size_empty. lia.
    + assert (H : watches s = ∅).
      { apply map_empty. intros j. destruct (watches s !! j) as [r|] eqn:Hj; [|reflexivity].
        pose proof (tracked_watches s Ht j r Hj). congruence. }
      rewrite H, map_size_empty. lia.
  - rewrite (tracked_no_watch s Ht Hid), map_size_empty. lia.
Qed.

(** The watches after [clearWatch (watchId s)] in a tracked state. *)
Lemma tracked_clearWatch (s : state) :
  tracked s → watches (fst (clearWatch (watchId s) s)) = ∅.
Proof.
  intros Ht. unfold clearWatch. destruct (watchId s) as [id|] eqn:Hid; simpl.
  - apply (tracked_delete s id Ht Hid).
  - apply (tracked_no_watch s Ht Hid).
Qed.

Lemma untilAccurate_tracked (c : call) (position : value) (s : state) :
  tracked s → started s = true → tracked (fst (untilAccurate c position s)).
Proof.
  intros Ht Hs. unfold untilAccurate.
  destruct (accuracy position) as [a|]; [|exact Ht].
  destruct (js_le a threshold); [|exact Ht].
  pose proof (tracked_clearWatch s Ht) as Hc.
  destruct Ht as [Ha Hi Hw Hp].
  unfold clearWatch in *. destruct (watchId s) as [id|]; simpl in *.
  - split; simpl; [exact Ha | congruence | | exact Hp].
    intros j r Hj. rewrite Hc in Hj.
    apply lookup_insert_Some in Hj as [[-> _]|[_ Hj]]; [reflexivity|].
    rewrite lookup_empty in Hj. discriminate.
  - split; simpl; [exact Ha | congruence | | exact Hp].
    intros j r Hj. rewrite Hc in Hj.
    apply lookup_insert_Some in Hj as [[-> _]|[_ Hj]]; [reflexivity|].
    rewrite lookup_empty in Hj. discriminate.
Qed.

(** The switch, spelled out: what the callback does on a fix that is
    accurate enough while [watchId] holds [id]. *)
Lemma untilAccurate_switch (c : call) (position : value) (s : state) (a : number) (id : nat) :
  accuracy position = Some a → js_le a threshold = true → watchId s = Some id →
  untilAccurate c position s =
    (set_watchId (Some (next_watch s))
       (set_watches (<[next_watch s := movement_request c]> (delete id (watches s)))
                    (S (next_watch s)) s),
     ClearWatch (Some id)
       :: WatchPosition (next_watch s) (request_options (movement_request c))
       :: callOnUpdate c position).
Proof.
  intros Ha Hle Hid. unfold untilAccurate. rewrite Ha, Hle, Hid. reflexivity.
Qed.

Lemma untilAccurate_keep (c : call) (position : value) (s : state) (a : number) :
  accuracy position = Some a → js_le a threshold = false →
  untilAccurate c position s = (s, callOnUpdate c position).
Proof. intros Ha Hle. unfold untilAccurate. rewrite Ha, Hle. reflexivity. Qed.

Lemma resume_singleton (c c0 : call) (l : list call) :
  resume c [c0] = Some l → c0 = c ∧ l = [].
Proof.
  simpl. destruct (decide (c0 = c)) as [->|]; simpl; [|discriminate].
  intros [= <-]. split; reflexivity.
Qed.

(** [tracked] is kept by every event of a sequential run. *)
Lemma step_tracked (s : state) (e : event) :
  tracked s → (is_start e = true → awaiting s = []) → tracked (fst (step s e)).
Proof.
  intros Ht Hseq. pose proof Ht as [Ha Hi Hw Hp].
  destruct e as [c| |c r|i p|i err|id p|id err|status]; simpl.
  - unfold startObserving. destruct (started s) eqn:Hs; [exact Ht|]. simpl.
    rewrite (Hseq eq_refl).
    split; simpl; [right; eauto | intros _; apply Hi; reflexivity | exact Hw | exact Hp].
  - unfold stopObserving. destruct (watchId s) as [id|] eqn:Hid; [|exact Ht]. simpl.
    split; simpl; [exact Ha | rewrite Hid; exact Hi | | exact Hp].
    intros j r Hj. apply lookup_delete_Some in Hj as [_ Hj]. rewrite Hid. eauto.
  - destruct (resume c (awaiting s)) as [l|] eqn:Hres; [|exact Ht].
    destruct Ha as [Ha|[Hs [c0 Ha]]]; rewrite Ha in Hres; [discriminate|].
    apply resume_singleton in Hres as [-> ->].
    unfold startObserving_resume. destruct (requestLocationPermission r); simpl.
    + split; simpl; [left; reflexivity | discriminate | |].
      * intros j r0 Hj. rewrite (tracked_no_watch s Ht (Hi Hs)) in Hj.
        apply lookup_insert_Some in Hj as [[-> _]|[_ Hj]]; [reflexivity|].
        rewrite lookup_empty in Hj. discriminate.
      * intros j r0 Hj.
        apply lookup_insert_Some in Hj as [[_ <-]|[_ Hj]]; [eexists; reflexivity | eauto].
    + split; simpl; [left; reflexivity | exact Hi | exact Hw | exact Hp].
  - destruct (polls s !! i) as [r|] eqn:Hr; [|exact Ht].
    destruct (Hp i r Hr) as [c ->]. simpl.
    split; simpl; [exact Ha | exact Hi | exact Hw |].
    intros j r0 Hj. apply lookup_delete_Some in Hj as [_ Hj]. eauto.
  - destruct (polls s !! i) as [r|] eqn:Hr; [|exact Ht]. simpl.
    split; simpl; [exact Ha | exact Hi | exact Hw |].
    intros j r0 Hj. apply lookup_delete_Some in Hj as [_ Hj]. eauto.
  - destruct (watches s !! id) as [r|] eqn:Hr; [|exact Ht].
    destruct (success r) as [c|c]; simpl; [exact Ht|].
    apply untilAccurate_tracked; [exact Ht|].
    apply (tracked_running s id Ht (Hw id r Hr)).
  - destruct (watches s !! id) as [r|]; exact Ht.
  - destruct (listener s) as [c|]; [|exact Ht]. unfold gpsListener.
    assert (Hpoll : tracked (fst (getInitialPosition (OnUpdate c) c s))).
    { split; simpl; [exact Ha | exact Hi | exact Hw |].
      intros j r0 Hj.
      apply lookup_insert_Some in Hj as [[_ <-]|[_ Hj]]; [eexists; reflexivity | eauto]. }
    destruct (decide (status = AUTHORIZED)); destruct (decide (status ≠ RESTRICTED));
      simpl; assumption.
Qed.

Lemma run_tracked (s : state) (tr : list event) :
  tracked s → sequential s tr = true → tracked (fst (run s tr)).
Proof.
  revert s. induction tr as [|e tr IH]; intros s Ht Hseq; simpl; [exact Ht|].
  simpl in Hseq. apply andb_true_iff in Hseq as [He Hseq].
  assert (Hstart : is_start e = true → awaiting s = []).
  { intros H. rewrite H in He. apply bool_decide_eq_true in He. exact He. }
  pose proof (step_tracked s e Ht Hstart) as H1.
  destruct (step s e) as [s1 a1]. simpl in *.
  pose proof (IH s1 H1 Hseq) as H2. destruct (run s1 tr) as [s2 a2]. exact H2.
Qed.

Lemma switches_app (l1 l2 : list action) :
  switches (l1 ++ l2) = (switches l1 + switches l2)%nat.
Proof. unfold switches. rewrite List.filter_app, length_app. reflexivity. Qed.

Lemma switches_callOnUpdate (c : call) (position : value) :
  switches (callOnUpdate c position) = 0%nat.
Proof. unfold callOnUpdate. destruct (onUpdate position); reflexivity. Qed.

Lemma switched_same (s s' : state) (n : nat) :
  switched s n → tracked s' → started s' = started s →
  (∀ id r, watches s' !! id = Some r → watches s !! id = Some r) →
  switched s' n.
Proof.
  intros [Ht Hi Ho Hs] Ht' Hst Hsub. split; [exact Ht' | | exact Ho |].
  - rewrite Hst. exact Hi.
  - intros Hn id r Hr. eauto.
Qed.

Lemma step_switched (s : state) (e : event) (n : nat) :
  switched s n → (is_start e = true → awaiting s = []) →
  switched (fst (step s e)) (n + switches (snd (step s e))).
Proof.
  intros Hsw Hseq. pose proof Hsw as [Ht Hi Ho Hs].
  pose proof (step_tracked s e Ht Hseq) as Ht'.
  pose proof Ht as [Ha Hidle Hw Hp].
  destruct e as [c| |c r|i p|i err|id p|id err|status]; simpl in *.
  - unfold startObserving in *. destruct (started s) eqn:Hst; simpl in *;
      rewrite Nat.add_0_r; apply (switched_same s _ n Hsw Ht'); simpl; auto.
  - unfold stopObserving in *. destruct (watchId s) as [id|] eqn:Hid; simpl in *;
      rewrite Nat.add_0_r; apply (switched_same s _ n Hsw Ht'); simpl; auto.
    intros j r Hj. apply lookup_delete_Some in Hj as [_ Hj]. exact Hj.
  - destruct (resume c (awaiting s)) as [l|] eqn:Hres; simpl in *;
      [|rewrite Nat.add_0_r; exact Hsw].
    destruct Ha as [Ha|[Hst [c0 Ha]]]; rewrite Ha in Hres; [discriminate|].
    apply resume_singleton in Hres as [-> ->].
    unfold startObserving_resume in *. destruct (requestLocationPermission r); simpl in *.
    + rewrite (Hi Hst).
      match goal with
      | |- switched _ (_ + ?k) => replace k with 0%nat by (vm_compute; reflexivity)
      end.
      split; simpl; [exact Ht' | reflexivity | lia | discriminate].
    + rewrite Nat.add_0_r. apply (switched_same s _ n Hsw Ht'); simpl; auto.
  - destruct (polls s !! i) as [r|] eqn:Hr; simpl in *; [|rewrite Nat.add_0_r; exact Hsw].
    destruct (Hp i r Hr) as [c Hc]. rewrite Hc in *. simpl in *.
    rewrite switches_callOnUpdate, Nat.add_0_r.
    apply (switched_same s _ n Hsw Ht'); simpl; auto.
  - destruct (polls s !! i) as [r|] eqn:Hr; simpl in *;
      rewrite Nat.add_0_r; [|exact Hsw].
    apply (switched_same s _ n Hsw Ht'); simpl; auto.
  - destruct (watches s !! id) as [r|] eqn:Hr; simpl in *; [|rewrite Nat.add_0_r; exact Hsw].
    destruct (success r) as [c|c] eqn:Hc; simpl in *.
    + rewrite switches_callOnUpdate, Nat.add_0_r. exact Hsw.
    + destruct (accuracy p) as [a|] eqn:Hacc.
      2:{ unfold untilAccurate in *. rewrite Hacc in *. simpl.
          rewrite Nat.add_0_r. exact Hsw. }
      destruct (js_le a threshold) eqn:Hle.
      2:{ rewrite (untilAccurate_keep c p s a Hacc Hle) in *. simpl.
          rewrite switches_callOnUpdate, Nat.add_0_r. exact Hsw. }
      pose proof (Hw id r Hr) as Hid.
      rewrite (untilAccurate_switch c p s a id Hacc Hle Hid) in *.
      cbn [fst snd] in *.
      assert (Hn : n = 0%nat).
      { destruct n as [|n]; [reflexivity|]. assert (n = 0%nat) as -> by lia.
        destruct (Hs eq_refl id r Hr) as [c' Hc']. congruence. }
      subst n.
      match goal with
      | |- switched _ (_ + switches (?x :: ?y :: ?l)) =>
          change (x :: y :: l) with ([x; y] ++ l)
      end.
      rewrite switches_app, switches_callOnUpdate.
      pose proof (tracked_running s id Ht Hid) as [Hst _].
      split; [exact Ht' | simpl; congruence | vm_compute; lia |].
      intros _ j r0 Hj. exists c. simpl in Hj.
      rewrite (tracked_delete s id Ht Hid) in Hj.
      apply lookup_insert_Some in Hj as [[_ <-]|[_ Hj]]; [reflexivity|].
      rewrite lookup_empty in Hj. discriminate.
  - destruct (watches s !! id) as [r|] eqn:Hr; simpl in *;
      rewrite Nat.add_0_r; exact Hsw.
  - destruct (listener s) as [c|]; simpl in *; [|rewrite Nat.add_0_r; exact Hsw].
    unfold gpsListener in *.
    destruct (decide (status = AUTHORIZED)); destruct (decide (status ≠ RESTRICTED));
      simpl in *; rewrite Nat.add_0_r; try exact Hsw;
      apply (switched_same s _ n Hsw Ht'); simpl; auto.
Qed.

Lemma run_switched (s : state) (tr : list event) (n : nat) :
  switched s n → sequential s tr = true →
  switched (fst (run s tr)) (n + switches (snd (run s tr))).
Proof.
  revert s n. induction tr as [|e tr IH]; intros s n Hsw Hseq; simpl.
  - rewrite Nat.add_0_r. exact Hsw.
  - simpl in Hseq. apply andb_true_iff in Hseq as [He Hseq].
    assert (Hstart : is_start e = true → awaiting s = []).
    { intros H. rewrite H in He. apply bool_decide_eq_true in He. exact He. }
    pose proof (step_switched s e n Hsw Hstart) as H1.
    destruct (step s e) as [s1 a1]. simpl in *.
    pose proof (IH s1 _ H1 Hseq) as H2.
    destruct (run s1 tr) as [s2 a2]. simpl in *.
    rewrite switches_app, Nat.add_assoc. exact H2.
Qed.

Lemma onUpdate_fix (props : gmap string value) (n : number) :
  fix_radius (VObj props) = Some n →
  onUpdate (VObj props) =
    Some (VObj (<["status" := num (if js_gt n threshold
                                   then statusCodes.LOW_ACCURACY
                                   else statusCodes.HIGH_ACCURACY)]> props)).
Proof.
  intros Hf. unfold onUpdate. simpl. rewrite (accuracy_of_fix props n Hf). simpl.
  destruct (js_gt n threshold); reflexivity.
Qed.

(** C2 (as the code has it).  Along a run of a new session whose
    [startObserving] calls do not overlap, at most one [watchPosition]
    subscription is registered at any time and a movement-gated subscription
    is created at most once.  A fix with radius at most 10 m that the
    continuous subscription reports makes the session clear that
    subscription, register the movement-gated one in its place (the only one
    left) and deliver the fix as HIGH_ACCURACY.  A fix with radius above 10 m
    reported by the movement-gated subscription is delivered as LOW_ACCURACY
    and changes nothing: no subscription is created or cleared. *)
Theorem one_subscription_one_switch :
  (∀ tr, sequential constructor tr = true →
     (size (watches (fst (run constructor tr))) ≤ 1)%nat ∧
     (switches (snd (run constructor tr)) ≤ 1)%nat) ∧
  (∀ s id r c props q,
     tracked s → watches s !! id = Some r → success r = UntilAccurate c →
     fix_radius (VObj props) = Some (Finite q) → (q <= inject_Z MAX_ACCURACY)%Q →
     snd (step s (WatchFix id (VObj props))) =
       [ClearWatch (Some id);
        WatchPosition (next_watch s) (request_options (movement_request c));
        Location c (VObj (<["status" := num statusCodes.HIGH_ACCURACY]> props))] ∧
     watches (fst (step s (WatchFix id (VObj props)))) =
       {[ next_watch s := movement_request c ]} ∧
     watchId (fst (step s (WatchFix id (VObj props)))) = Some (next_watch s)) ∧
  (∀ s id r c props q,
     watches s !! id = Some r → success r = OnUpdate c →
     fix_radius (VObj props) = Some (Finite q) → (inject_Z MAX_ACCURACY < q)%Q →
     step s (WatchFix id (VObj props)) =
       (s, [Location c (VObj (<["status" := num statusCodes.LOW_ACCURACY]> props))])).
Proof.
  split; [|split].
  - intros tr Hseq.
    assert (H0 : switched constructor 0).
    { split; [apply tracked_constructor | reflexivity | lia | discriminate]. }
    pose proof (run_switched constructor tr 0 H0 Hseq) as [Ht _ Ho _].
    split; [apply tracked_size; exact Ht | exact Ho].
  - intros s id r c props q Ht Hr Hc Hfix Hq.
    pose proof (tracked_watches s Ht id r Hr) as Hid.
    pose proof (accuracy_of_fix props _ Hfix) as Hacc.
    pose proof (proj2 (js_le_finite q) Hq) as Hle.
    cbn [step]. rewrite Hr. unfold invoke. rewrite Hc.
    rewrite (untilAccurate_switch c (VObj props) s _ id Hacc Hle Hid). cbn [fst snd].
    unfold callOnUpdate. rewrite (onUpdate_fix props _ Hfix), (js_le_not_gt _ Hle).
    split; [reflexivity|]. split; [|reflexivity].
    simpl. rewrite (tracked_delete s id Ht Hid). reflexivity.
  - intros s id r c props q Hr Hc Hfix Hq.
    cbn [step]. rewrite Hr. unfold invoke. rewrite Hc.
    unfold callOnUpdate. rewrite (onUpdate_fix props _ Hfix).
    rewrite (proj2 (js_gt_finite q) Hq). reflexivity.
Qed.

Lemma one_subscription_one_switch_witness :
  let tr := [StartObserving 0%nat; PermissionSettled 0%nat granted_both;
             WatchFix 0%nat (position_with_accuracy 50)] in
  let s := fst (run constructor tr) in
  sequential constructor tr = true ∧ tracked s ∧
  (size (watches s) ≤ 1)%nat ∧
  watches (fst (step s (WatchFix 0%nat (position_with_accuracy 4)))) =
    {[ 1%nat := movement_request 0%nat ]} ∧
  step (fst (step s (WatchFix 0%nat (position_with_accuracy 4))))
       (WatchFix 1%nat (position_with_accuracy 30)) =
    (fst (step s (WatchFix 0%nat (position_with_accuracy 4))),
     [Location 0%nat
        (VObj (<["status" := num statusCodes.LOW_ACCURACY]>
                 {[ "coords" := VObj {[ "accuracy" := VNum (Finite 30) ]} ]}))]).
Proof.
  intros tr s.
  assert (Hseq : sequential constructor tr = true) by reflexivity.
  assert (Ht : tracked s).
  { apply run_tracked; [apply tracked_constructor | exact Hseq]. }
  split; [exact Hseq|]. split; [exact Ht|]. split; [|split].
  - apply (proj1 (proj1 one_subscription_one_switch tr Hseq)).
  - assert (Hw : watches s !! 0%nat = Some (until_accurate_request 0%nat))
      by (vm_compute; reflexivity).
    assert (Hf : fix_radius (VObj {[ "coords" := VObj {[ "accuracy" := VNum (Finite 4) ]} ]})
                 = Some (Finite 4)) by (vm_compute; reflexivity).
    assert (Hq : (4 <= inject_Z MAX_ACCURACY)%Q) by discriminate.
    apply (proj1 (proj2 (proj1 (proj2 one_subscription_one_switch)
             s 0%nat _ 0%nat _ 4%Q Ht Hw eq_refl Hf Hq))).
  - assert (Hf : fix_radius (VObj {[ "coords" := VObj {[ "accuracy" := VNum (Finite 30) ]} ]})
                 = Some (Finite 30)) by (vm_compute; reflexivity).
    assert (Hq : (inject_Z MAX_ACCURACY < 30)%Q) by reflexivity.
    apply (proj2 (proj2 one_subscription_one_switch)
             _ 1%nat (movement_request 0%nat) 0%nat _ 30%Q);
      [vm_compute; reflexivity | reflexivity | exact Hf | exact Hq].
Defined.

(** C2 as the specification words it fails: the first delivered fix with a
    radius of at most 10 m can come from the single-shot low-accuracy request,
    whose callback is [onUpdate] itself; it is delivered as HIGH_ACCURACY and
    no movement-gated subscription is created. *)
Lemma accurate_poll_fix_does_not_switch :
  ¬ (∀ tr c v q,
       In (Location c v) (snd (run constructor tr)) →
       fix_radius v = Some (Finite q) → (q <= inject_Z MAX_ACCURACY)%Q →
       ∃ id o, In (WatchPosition id o) (snd (run constructor tr)) ∧
               distanceFilter o = Some MIN_DISTANCE).
Proof.
  intros H.
  destruct (H [StartObserving 0%nat; PermissionSettled 0%nat granted_both;
               PollFix 0%nat (position_with_accuracy 5)]
              0%nat
              (VObj {[ "coords" := VObj {[ "accuracy" := VNum (Finite 5) ]};
                       "status" := num statusCodes.HIGH_ACCURACY ]})
              5%Q) as (id & o & Hin & Hd).
  - find_in_list.
  - reflexivity.
  - discriminate.
  - simpl in Hin.
    repeat (destruct Hin as [Hin|Hin]; try discriminate Hin); try contradiction.
    injection Hin as _ <-. discriminate Hd.
Qed.

(** Two calls made before the first permission request settles both pass the
    guard, and both subscribe. *)
Example overlapping_starts_subscribe_twice :
  let tr := [StartObserving 0%nat; StartObserving 1%nat;
             PermissionSettled 0%nat granted_both; PermissionSettled 1%nat granted_both] in
  sequential constructor tr = false ∧
  size (watches (fst (run constructor tr))) = 2%nat.
Proof. vm_compute. split; reflexivity. Qed.

(** ** After [stopObserving] *)









(** * Further properties of the module *)

(** ** What the status derivation leaves alone *)

Lemma accuracy_status (props : gmap string value) (x : value) :
  accuracy (VObj (<["status" := x]> props)) = accuracy (VObj props).
Proof. unfold accuracy. simpl. rewrite lookup_insert_ne by discriminate. reflexivity. Qed.

Lemma onUpdate_accuracy (props : gmap string value) (a : number) :
  accuracy (VObj props) = Some a →
  onUpdate (VObj props) =
    Some (VObj (<["status" := num (if js_gt a threshold
                                   then statusCodes.LOW_ACCURACY
                                   else statusCodes.HIGH_ACCURACY)]> props)).
Proof.
  intros Ha. unfold onUpdate. cbn [truthy negb]. rewrite Ha. simpl.
  destruct (js_gt a threshold); reflexivity.
Qed.

(** X1.  When [onUpdate] is given a position it writes [status] and nothing
    else: every other property of the delivered update reads as it did on
    the position the driver reported, and a [status] the position already
    had is replaced by one of the two fix codes. *)
Theorem onUpdate_writes_status_only (position v : value) :
  truthy position = true → onUpdate position = Some v →
  (∀ k, k ≠ "status" → get v k = get position k) ∧
  (has_status v statusCodes.LOW_ACCURACY ∨ has_status v statusCodes.HIGH_ACCURACY).
Proof.
  intros Ht Hu. apply onUpdate_inv in Hu as [[Hf _]|(props & a & -> & Ha & ->)];
    [congruence|].
  split.
  - intros k Hk. simpl. rewrite lookup_insert_ne by congruence. reflexivity.
  - unfold has_status. simpl. rewrite lookup_insert_eq. simpl.
    destruct (js_gt a threshold); [left | right]; reflexivity.
Qed.

Lemma onUpdate_writes_status_only_witness :
  let p := VObj {[ "coords" := VObj {[ "accuracy" := VNum (Finite 50) ]};
                   "status" := num 7; "timestamp" := num 1234 ]} in
  ∃ v, onUpdate p = Some v ∧ get v "timestamp" = Some (num 1234) ∧
       has_status v statusCodes.LOW_ACCURACY.
Proof.
  intros p.
  assert (Hu : onUpdate p =
    Some (VObj {[ "coords" := VObj {[ "accuracy" := VNum (Finite 50) ]};
                  "status" := num statusCodes.LOW_ACCURACY; "timestamp" := num 1234 ]}))
    by (vm_compute; reflexivity).
  eexists. split; [exact Hu|].
  destruct (onUpdate_writes_status_only p _ eq_refl Hu) as [Hk _].
  split; [|vm_compute; reflexivity].
  rewrite (Hk "timestamp") by discriminate. vm_compute. reflexivity.
Defined.

(** X2.  Tagging is idempotent on fixes: an update [onUpdate] delivered for
    a position, given to [onUpdate] again (the driver may report the same
    object twice), is delivered unchanged. *)
Theorem onUpdate_idempotent (position v : value) :
  truthy position = true → onUpdate position = Some v → onUpdate v = Some v.
Proof.
  intros Ht Hu. apply onUpdate_inv in Hu as [[Hf _]|(props & a & -> & Ha & ->)];
    [congruence|].
  rewrite <- accuracy_status with (x := num (if js_gt a threshold
            then statusCodes.LOW_ACCURACY else statusCodes.HIGH_ACCURACY)) in Ha.
  rewrite (onUpdate_accuracy _ a Ha), insert_insert_eq. reflexivity.
Qed.

Lemma onUpdate_idempotent_witness :
  let v := VObj {[ "coords" := VObj {[ "accuracy" := VNum (Finite 5) ]};
                   "status" := num statusCodes.HIGH_ACCURACY ]} in
  onUpdate (position_with_accuracy 5) = Some v ∧ onUpdate v = Some v.
Proof.
  intros v.
  assert (Hu : onUpdate (position_with_accuracy 5) = Some v) by (vm_compute; reflexivity).
  split; [exact Hu|].
  apply (onUpdate_idempotent (position_with_accuracy 5) v eq_refl Hu).
Defined.

(** ** The accuracy test and the status tag *)

Lemma js_gt_le_complement (a : number) :
  a ≠ NaN → js_gt a threshold = negb (js_le a threshold).
Proof.
  intros Ha. unfold js_gt, js_le, threshold, IsLessThan.
  destruct a as [| |q|]; [contradiction| | |]; try reflexivity.
  destruct (inject_Z MAX_ACCURACY ?= q)%Q; reflexivity.
Qed.

(** X3.  In the callback of the continuous subscription the test
    [accuracy <= MAX_ACCURACY] that decides the switch and the test
    [accuracy > MAX_ACCURACY] that decides the tag agree whenever the
    accuracy converts to a number other than NaN: the fix is delivered as
    HIGH_ACCURACY with exactly one movement-gated subscription created, or
    as LOW_ACCURACY with the state untouched.  When it converts to NaN (the
    [accuracy] field is missing, say) both tests are false: the fix is
    delivered as HIGH_ACCURACY and the state is untouched, the continuous
    subscription stays. *)
Theorem untilAccurate_tag_and_switch
  (c : call) (props : gmap string value) (s : state) (a : number) :
  accuracy (VObj props) = Some a →
  (a ≠ NaN →
     (switches (snd (untilAccurate c (VObj props) s)) = 1%nat ∧
      In (Location c (VObj (<["status" := num statusCodes.HIGH_ACCURACY]> props)))
         (snd (untilAccurate c (VObj props) s))) ∨
     untilAccurate c (VObj props) s =
       (s, [Location c (VObj (<["status" := num statusCodes.LOW_ACCURACY]> props))])) ∧
  (a = NaN →
     untilAccurate c (VObj props) s =
       (s, [Location c (VObj (<["status" := num statusCodes.HIGH_ACCURACY]> props))])).
Proof.
  intros Ha. unfold untilAccurate, callOnUpdate.
  rewrite Ha, (onUpdate_accuracy props a Ha). split.
  - intros Hn. rewrite (js_gt_le_complement a Hn).
    destruct (js_le a threshold); simpl; [left | right; reflexivity].
    unfold clearWatch. split.
    + destruct (watchId s); reflexivity.
    + destruct (watchId s); simpl; right; right; left; reflexivity.
  - intros ->. reflexivity.
Qed.

Lemma untilAccurate_tag_and_switch_witness :
  let props : gmap string value := {[ "coords" := VObj ∅ ]} in
  accuracy (VObj props) = Some NaN ∧
  untilAccurate 0%nat (VObj props) constructor =
    (constructor,
     [Location 0%nat (VObj (<["status" := num statusCodes.HIGH_ACCURACY]> props))]).
Proof.
  intros props.
  assert (Ha : accuracy (VObj props) = Some NaN) by (vm_compute; reflexivity).
  split; [exact Ha|].
  apply (proj2 (untilAccurate_tag_and_switch 0%nat props constructor NaN Ha) eq_refl).
Defined.

(** ** No TypeError on documented positions *)

Lemma is_fix_object (position : value) :
  is_fix position = true → ∃ props n, position = VObj props ∧ fix_radius position = Some n.
Proof.
  unfold is_fix. destruct (fix_radius position) as [n|] eqn:Hf; [|discriminate].
  intros _. destruct position as [| | | |props]; try discriminate. eauto.
Qed.

Lemma callOnUpdate_fix (c : call) (position : value) :
  is_fix position = true → ¬ In Fault (callOnUpdate c position).
Proof.
  intros Hf. apply is_fix_object in Hf as (props & n & -> & Hn).
  unfold callOnUpdate. rewrite (onUpdate_fix props n Hn). intros [H|[]]. discriminate.
Qed.

Lemma invoke_fix (cb : success_callback) (position : value) (s : state) :
  is_fix position = true → ¬ In Fault (snd (invoke cb position s)).
Proof.
  intros Hf. pose proof (callOnUpdate_fix (callback_call cb) position Hf) as Hc.
  destruct cb as [c|c]; simpl in *; [exact Hc|].
  pose proof Hf as Hf'. apply is_fix_object in Hf' as (props & n & -> & Hn).
  unfold untilAccurate. rewrite (accuracy_of_fix props n Hn).
  destruct (js_le n threshold); [|exact Hc].
  unfold clearWatch. destruct (watchId s); simpl;
    intros [H|[H|H]]; try discriminate; contradiction.
Qed.

Lemma step_no_fault (s : state) (e : event) :
  reports_fixes e = true → ¬ In Fault (snd (step s e)).
Proof.
  intros He. destruct e as [c| |c r|i p|i err|id p|id err|status]; simpl in *.
  - unfold startObserving. destruct (started s); simpl; intros [H|[]]; discriminate.
  - unfold stopObserving. destruct (watchId s); simpl; [|intros []].
    intros [H|[H|[]]]; discriminate.
  - destruct (resume c (awaiting s)); simpl; [|intros []].
    unfold startObserving_resume. destruct (requestLocationPermission r); simpl.
    + intros [H|[H|[H|[H|[]]]]]; discriminate.
    + intros [H|[]]; discriminate.
  - destruct (polls s !! i); simpl; [apply invoke_fix; exact He | intros []].
  - destruct (polls s !! i); simpl; [|intros []]. intros [H|[]]; discriminate.
  - destruct (watches s !! id); simpl; [apply invoke_fix; exact He | intros []].
  - destruct (watches s !! id); simpl; [|intros []]. intros [H|[]]; discriminate.
  - destruct (listener s) as [c|]; simpl; [|intros []]. unfold gpsListener.
    destruct (decide (status = AUTHORIZED)); destruct (decide (status ≠ RESTRICTED));
      simpl; intros H; repeat (destruct H as [H|H]; try discriminate); contradiction.
Qed.

(** X4.  From any state, along any events in which every position the
    driver reports has a [coords] record with a numeric [accuracy], no
    TypeError escapes a callback of the module. *)
Theorem no_fault_on_fixes (s : state) (tr : list event) :
  forallb reports_fixes tr = true → ¬ In Fault (snd (run s tr)).
Proof.
  revert s. induction tr as [|e tr IH]; intros s Htr; simpl; [intros []|].
  simpl in Htr. apply andb_true_iff in Htr as [He Htr].
  pose proof (step_no_fault s e He) as H1. destruct (step s e) as [s1 a1].
  pose proof (IH s1 Htr) as H2. destruct (run s1 tr) as [s2 a2]. simpl in *.
  rewrite in_app_iff. intros [H|H]; [apply H1 | apply H2]; exact H.
Qed.

Lemma no_fault_on_fixes_witness :
  let tr := [StartObserving 0%nat; PermissionSettled 0%nat granted_both;
             PollFix 0%nat (position_with_accuracy 80);
             WatchFix 0%nat (position_with_accuracy 3);
             WatchFix 1%nat (position_with_accuracy 12)] in
  forallb reports_fixes tr = true ∧ ¬ In Fault (snd (run constructor tr)).
Proof.
  intros tr. assert (H : forallb reports_fixes tr = true) by (vm_compute; reflexivity).
  split; [exact H|]. apply (no_fault_on_fixes constructor tr H).
Defined.

(** ** Who is called back *)

Lemma resume_In (c : call) (l l' : list call) :
  resume c l = Some l' → In c l ∧ ∀ x, In x l' → In x l.
Proof.
  revert l'. induction l as [|y l IH]; intros l'; simpl; [discriminate|].
  destruct (decide (y = c)) as [->|Hne].
  - intros [= <-]. split; [left; reflexivity | intros x Hx; right; exact Hx].
  - destruct (resume c l) as [l0|]; simpl; [|discriminate].
    intros [= <-]. destruct (IH l0 eq_refl) as [Hc Hsub].
    split; [right; exact Hc|]. intros x [->|Hx]; [left; reflexivity | right; auto].
Qed.

Lemma callOnUpdate_call (c : call) (position : value) (a : action) (c' : call) :
  In a (callOnUpdate c position) → action_call a = Some c' → c' = c.
Proof.
  unfold callOnUpdate. destruct (onUpdate position); intros [<-|[]]; simpl; congruence.
Qed.

Lemma insert_all (Q : request → Prop) (m : gmap nat request) (n : nat) (x : request) :
  (∀ i r, m !! i = Some r → Q r) → Q x →
  ∀ i r, <[n := x]> m !! i = Some r → Q r.
Proof.
  intros Hm Hx i r Hi. apply lookup_insert_Some in Hi as [[_ <-]|[_ Hi]]; eauto.
Qed.

Lemma delete_all (Q : request → Prop) (m : gmap nat request) (n : nat) :
  (∀ i r, m !! i = Some r → Q r) →
  ∀ i r, delete n m !! i = Some r → Q r.
Proof. intros Hm i r Hi. apply lookup_delete_Some in Hi as [_ Hi]. eauto. Qed.

Lemma invoke_owned (P : call → Prop) (cb : success_callback) (position : value) (s : state) :
  owned P s → P (callback_call cb) →
  owned P (fst (invoke cb position s)) ∧
  ∀ a c, In a (snd (invoke cb position s)) → action_call a = Some c → P c.
Proof.
  intros Ho Hcb. pose proof Ho as (Ha & Hl & Hp & Hw).
  assert (Hcall : ∀ c0 a c, P c0 → In a (callOnUpdate c0 position) →
                            action_call a = Some c → P c).
  { intros c0 a c HP Hin Hac. rewrite (callOnUpdate_call c0 position a c Hin Hac). exact HP. }
  destruct cb as [c0|c0]; simpl in *; [split; [exact Ho | eauto]|].
  unfold untilAccurate. destruct (accuracy position) as [x|].
  2:{ split; [exact Ho|]. intros a c [<-|[]]. discriminate. }
  destruct (js_le x threshold); [|split; [exact Ho | eauto]].
  unfold clearWatch. destruct (watchId s) as [w|]; simpl; split.
  - split; [exact Ha|]. split; [exact Hl|]. split; [exact Hp|].
    simpl. apply insert_all; simpl; auto. apply delete_all. exact Hw.
  - intros a c [<-|[<-|Hin]] Hac; try discriminate; eauto.
  - split; [exact Ha|]. split; [exact Hl|]. split; [exact Hp|].
    simpl. apply insert_all; simpl; auto.
  - intros a c [<-|[<-|Hin]] Hac; try discriminate; eauto.
Qed.

Lemma step_owned (P : call → Prop) (s : state) (e : event) :
  owned P s → (∀ c, e = StartObserving c → P c) →
  owned P (fst (step s e)) ∧
  ∀ a c, In a (snd (step s e)) → action_call a = Some c → P c.
Proof.
  intros Ho Hstart. pose proof Ho as (Ha & Hl & Hp & Hw).
  destruct e as [c0| |c0 r|i p|i err|w p|w err|status]; simpl.
  - unfold startObserving. destruct (started s); simpl.
    + split; [exact Ho|]. intros a c [<-|[]] [= <-]. apply Hstart. reflexivity.
    + split; [|intros a c [<-|[]]; discriminate].
      split; [|split; [exact Hl | split; [exact Hp | exact Hw]]].
      intros c Hc. apply in_app_iff in Hc as [Hc|[<-|[]]]; [auto|].
      apply Hstart. reflexivity.
  - unfold stopObserving. destruct (watchId s) as [w|]; simpl;
      [|split; [exact Ho | intros a c []]].
    split; [|intros a c [<-|[<-|[]]]; discriminate].
    split; [exact Ha|]. split; [discriminate|]. split; [exact Hp|].
    apply delete_all. exact Hw.
  - destruct (resume c0 (awaiting s)) as [l|] eqn:Hres; simpl;
      [|split; [exact Ho | intros a c []]].
    apply resume_In in Hres as [Hc0 Hsub]. pose proof (Ha c0 Hc0) as HP.
    unfold startObserving_resume. destruct (requestLocationPermission r); simpl.
    + split.
      * split; [auto|]. split; [intros c [= <-]; exact HP|].
        split; apply insert_all; simpl; auto.
      * intros a c [<-|[<-|[<-|[<-|[]]]]]; simpl; try discriminate.
        intros [= <-]. exact HP.
    + split.
      * split; [auto|]. split; [exact Hl|]. split; [exact Hp | exact Hw].
      * intros a c [<-|[]] [= <-]. exact HP.
  - destruct (polls s !! i) as [r|] eqn:Hr; simpl; [|split; [exact Ho | intros a c []]].
    apply invoke_owned; [|apply (Hp i r Hr)].
    split; [exact Ha|]. split; [exact Hl|]. split; [|exact Hw].
    apply delete_all. exact Hp.
  - destruct (polls s !! i) as [r|] eqn:Hr; simpl; [|split; [exact Ho | intros a c []]].
    split; [|intros a c [<-|[]] [= <-]; apply (Hp i r Hr)].
    split; [exact Ha|]. split; [exact Hl|]. split; [|exact Hw].
    apply delete_all. exact Hp.
  - destruct (watches s !! w) as [r|] eqn:Hr; simpl; [|split; [exact Ho | intros a c []]].
    apply invoke_owned; [exact Ho | apply (Hw w r Hr)].
  - destruct (watches s !! w) as [r|] eqn:Hr; simpl; [|split; [exact Ho | intros a c []]].
    split; [exact Ho|]. intros a c [<-|[]] [= <-]. apply (Hw w r Hr).
  - destruct (listener s) as [c0|] eqn:Hli; simpl; [|split; [exact Ho | intros a c []]].
    pose proof (Hl c0 eq_refl) as HP. unfold gpsListener.
    assert (Hpoll : owned P (fst (getInitialPosition (OnUpdate c0) c0 s))).
    { split; [exact Ha|]. split; [simpl; rewrite Hli; exact Hl|]. split; [|exact Hw].
      simpl. apply insert_all; simpl; auto. }
    destruct (decide (status = AUTHORIZED)); destruct (decide (status ≠ RESTRICTED));
      simpl; (split; [assumption|]); intros a c Hin Hac;
      repeat (destruct Hin as [<-|Hin]; [try discriminate; injection Hac as <-; exact HP|]);
      contradiction.
Qed.

Lemma run_owned (P : call → Prop) (s : state) (tr : list event) :
  owned P s → (∀ c, In (StartObserving c) tr → P c) →
  ∀ a c, In a (snd (run s tr)) → action_call a = Some c → P c.
Proof.
  revert s. induction tr as [|e tr IH]; intros s Ho Hstart a c; simpl; [intros []|].
  assert (He : ∀ c0, e = StartObserving c0 → P c0).
  { intros c0 ->. apply Hstart. left. reflexivity. }
  destruct (step_owned P s e Ho He) as [H1 H1a]. destruct (step s e) as [s1 a1].
  assert (Htr : ∀ c0, In (StartObserving c0) tr → P c0).
  { intros c0 Hc0. apply Hstart. right. exact Hc0. }
  pose proof (IH s1 H1 Htr a c) as H2. destruct (run s1 tr) as [s2 a2]. simpl in *.
  rewrite in_app_iff. intros [Hin|Hin] Hac; eauto.
Qed.

(** X5.  The session calls back only those who asked: along any run of a
    new session, every [onLocation] and [onError] call and every rejected
    promise belongs to a pair of callbacks that was passed to
    [startObserving] in that run. *)
Theorem callbacks_only_to_callers (tr : list event) (a : action) (c : call) :
  In a (snd (run constructor tr)) → action_call a = Some c →
  In (StartObserving c) tr.
Proof.
  apply (run_owned (λ c, In (StartObserving c) tr) constructor tr); [|auto].
  split; [intros c0 []|]. split; [discriminate|].
  split; intros i r H; simpl in H; rewrite lookup_empty in H; discriminate.
Qed.

Lemma callbacks_only_to_callers_witness :
  let tr := [StartObserving 3%nat; PermissionSettled 3%nat granted_both;
             WatchFailed 0%nat (createError "timed out" errorCodes.TIMEOUT)] in
  In (Failure 3%nat (createError "timed out" errorCodes.TIMEOUT)) (snd (run constructor tr)) ∧
  In (StartObserving 3%nat) tr.
Proof.
  intros tr.
  assert (H : In (Failure 3%nat (createError "timed out" errorCodes.TIMEOUT))
                 (snd (run constructor tr))) by find_in_list.
  split; [exact H|].
  apply (callbacks_only_to_callers tr _ 3%nat H eq_refl).
Defined.

(** ** Where errors come from *)

Lemma gate_error (r : settled) (err : error) :
  requestLocationPermission r = Throws err → module_error err.
Proof.
  destruct r as [granted|e]; simpl.
  - destruct (decide _); [discriminate|]. intros [= <-]. left. reflexivity.
  - intros [= <-]. right. right. reflexivity.
Qed.

Lemma callOnUpdate_no_failure (c c' : call) (position : value) (err : error) :
  ¬ In (Failure c' err) (callOnUpdate c position).
Proof. unfold callOnUpdate. destruct (onUpdate position); intros [H|[]]; discriminate. Qed.

Lemma invoke_no_failure (cb : success_callback) (position : value) (s : state)
  (c : call) (err : error) :
  ¬ In (Failure c err) (snd (invoke cb position s)).
Proof.
  destruct cb as [c0|c0]; simpl; [apply callOnUpdate_no_failure|].
  unfold untilAccurate. destruct (accuracy position); [|intros [H|[]]; discriminate].
  destruct (js_le _ _); [|apply callOnUpdate_no_failure].
  unfold clearWatch. destruct (watchId s); simpl;
    intros [H|[H|H]]; try discriminate; eapply callOnUpdate_no_failure; exact H.
Qed.

Lemma step_failure (s : state) (e : event) (c : call) (err : error) :
  In (Failure c err) (snd (step s e)) → reports_error err e ∨ module_error err.
Proof.
  destruct e as [c0| |c0 r|i p|i e0|w p|w e0|status]; simpl.
  - unfold startObserving. destruct (started s); simpl; intros [H|[]]; discriminate.
  - unfold stopObserving. destruct (watchId s); simpl; [|intros []].
    intros [H|[H|[]]]; discriminate.
  - destruct (resume c0 (awaiting s)); simpl; [|intros []].
    unfold startObserving_resume.
    destruct (requestLocationPermission r) as [|e0] eqn:Hr; simpl.
    + intros [H|[H|[H|[H|[]]]]]; discriminate.
    + intros [[= _ <-]|[]]. right. apply (gate_error r e0 Hr).
  - destruct (polls s !! i); simpl; [|intros []].
    intros H. exfalso. eapply invoke_no_failure; exact H.
  - destruct (polls s !! i); simpl; [|intros []]. intros [[= _ <-]|[]]. left. reflexivity.
  - destruct (watches s !! w); simpl; [|intros []].
    intros H. exfalso. eapply invoke_no_failure; exact H.
  - destruct (watches s !! w); simpl; [|intros []]. intros [[= _ <-]|[]]. left. reflexivity.
  - destruct (listener s) as [c0|]; simpl; [|intros []]. unfold gpsListener.
    destruct (decide (status = AUTHORIZED)); destruct (decide (status ≠ RESTRICTED));
      simpl; intros H; repeat (destruct H as [H|H]; try discriminate); try contradiction;
      injection H as _ <-; right; right; left; reflexivity.
Qed.

(** X6.  Every error handed to [onError], from any state and along any
    events, is either an error object the driver reported in one of those
    events, passed on as it is, or one the module built with code
    PERMISSION_DENIED, POSITION_UNAVAILABLE or UNKNOWN.  The module never
    builds an error with code TIMEOUT itself. *)
Theorem onError_provenance (s : state) (tr : list event) (c : call) (err : error) :
  In (Failure c err) (snd (run s tr)) →
  (∃ e, In e tr ∧ reports_error err e) ∨
  (module_error err ∧ code err ≠ Some errorCodes.TIMEOUT).
Proof.
  revert s. induction tr as [|e tr IH]; intros s; simpl; [intros []|].
  pose proof (step_failure s e c err) as H1. destruct (step s e) as [s1 a1].
  pose proof (IH s1) as H2. destruct (run s1 tr) as [s2 a2]. simpl in *.
  rewrite in_app_iff. intros [H|H].
  - destruct (H1 H) as [Hr|Hm]; [left; exists e; auto|].
    right. split; [exact Hm|]. destruct Hm as [Hm|[Hm|Hm]]; rewrite Hm; discriminate.
  - destruct (H2 H) as [(e' & Hin & Hr)|Hm]; [left; exists e'; auto | right; exact Hm].
Qed.

Lemma onError_provenance_witness :
  let tr := [StartObserving 0%nat; PermissionSettled 0%nat granted_both;
             GPSStatus RESTRICTED] in
  let err := createError errorMessages.POSITION_UNAVAILABLE errorCodes.POSITION_UNAVAILABLE in
  In (Failure 0%nat err) (snd (run constructor tr)) ∧
  ((∃ e, In e tr ∧ reports_error err e) ∨
   (module_error err ∧ code err ≠ Some errorCodes.TIMEOUT)).
Proof.
  intros tr err.
  assert (H : In (Failure 0%nat err) (snd (run constructor tr))) by find_in_list.
  split; [exact H|]. apply (onError_provenance constructor tr 0%nat err H).
Defined.

(** ** When the promise is rejected *)

Lemma invoke_no_rejection (cb : success_callback) (position : value) (s : state)
  (c : call) (err : error) :
  ¬ In (Rejected c err) (snd (invoke cb position s)).
Proof.
  assert (Hc : ∀ c0, ¬ In (Rejected c err) (callOnUpdate c0 position)).
  { intros c0. unfold callOnUpdate. destruct (onUpdate position); intros [H|[]]; discriminate. }
  destruct cb as [c0|c0]; simpl; [apply Hc|].
  unfold untilAccurate. destruct (accuracy position); [|intros [H|[]]; discriminate].
  destruct (js_le _ _); [|apply Hc].
  unfold clearWatch. destruct (watchId s); simpl;
    intros [H|[H|H]]; try discriminate; eapply Hc; exact H.
Qed.

Lemma step_rejection (s : state) (e : event) (c : call) (err : error) :
  In (Rejected c err) (snd (step s e)) →
  err = Error "Called startObserving more than once" ∧ started s = true.
Proof.
  destruct e as [c0| |c0 r|i p|i e0|w p|w e0|status]; simpl.
  - unfold startObserving. destruct (started s); simpl; intros [H|[]]; [|discriminate].
    injection H as _ <-. split; reflexivity.
  - unfold stopObserving. destruct (watchId s); simpl; [|intros []].
    intros [H|[H|[]]]; discriminate.
  - destruct (resume c0 (awaiting s)); simpl; [|intros []].
    unfold startObserving_resume. destruct (requestLocationPermission r); simpl.
    + intros [H|[H|[H|[H|[]]]]]; discriminate.
    + intros [H|[]]; discriminate.
  - destruct (polls s !! i); simpl; [|intros []].
    intros H. exfalso. eapply invoke_no_rejection; exact H.
  - destruct (polls s !! i); simpl; [|intros []]. intros [H|[]]; discriminate.
  - destruct (watches s !! w); simpl; [|intros []].
    intros H. exfalso. eapply invoke_no_rejection; exact H.
  - destruct (watches s !! w); simpl; [|intros []]. intros [H|[]]; discriminate.
  - destruct (listener s) as [c0|]; simpl; [|intros []]. unfold gpsListener.
    destruct (decide (status = AUTHORIZED)); destruct (decide (status ≠ RESTRICTED));
      simpl; intros H; repeat (destruct H as [H|H]; try discriminate); contradiction.
Qed.

(** [started] is set only by a call resumed after a successful request. *)
Lemma step_sets_started (s : state) (e : event) :
  started (fst (step s e)) = true →
  started s = true ∨ ∃ c r, e = PermissionSettled c r ∧ requestLocationPermission r = Returns.
Proof.
  destruct e as [c0| |c0 r|i p|i e0|w p|w e0|status]; simpl.
  - unfold startObserving. destruct (started s) eqn:Hst; simpl; rewrite ?Hst; auto.
  - unfold stopObserving. destruct (watchId s); simpl; intros H; left; exact H.
  - destruct (resume c0 (awaiting s)); simpl; [|intros H; left; exact H].
    unfold startObserving_resume.
    destruct (requestLocationPermission r) eqn:Hr; simpl; [|intros H; left; exact H].
    intros _. right. eauto.
  - destruct (polls s !! i); simpl; [|intros H; left; exact H].
    rewrite invoke_started. simpl. intros H; left; exact H.
  - destruct (polls s !! i); simpl; intros H; left; exact H.
  - destruct (watches s !! w); simpl; [|intros H; left; exact H].
    rewrite invoke_started. intros H; left; exact H.
  - destruct (watches s !! w); simpl; intros H; left; exact H.
  - destruct (listener s); simpl; [|intros H; left; exact H]. unfold gpsListener.
    destruct (decide (status = AUTHORIZED)); destruct (decide (status ≠ RESTRICTED));
      simpl; intros H; left; exact H.
Qed.

(** X7.  The promise of [startObserving] is rejected for one reason only:
    along any run, a rejection carries [Error "Called startObserving more
    than once"], and it happens only if the session was already started at
    the beginning of the run or a permission request of the run succeeded
    before.  A failing permission request never rejects the promise. *)
Theorem rejection_provenance (s : state) (tr : list event) (c : call) (err : error) :
  In (Rejected c err) (snd (run s tr)) →
  err = Error "Called startObserving more than once" ∧
  (started s = true ∨
   ∃ c0 r, In (PermissionSettled c0 r) tr ∧ requestLocationPermission r = Returns).
Proof.
  revert s. induction tr as [|e tr IH]; intros s; simpl; [intros []|].
  pose proof (step_rejection s e c err) as H1.
  pose proof (step_sets_started s e) as Hs.
  destruct (step s e) as [s1 a1].
  pose proof (IH s1) as H2. destruct (run s1 tr) as [s2 a2]. simpl in *.
  rewrite in_app_iff. intros [H|H].
  - destruct (H1 H) as [-> Hst]. split; [reflexivity | left; exact Hst].
  - destruct (H2 H) as [-> [Hst|(c0 & r & Hin & Hr)]]; (split; [reflexivity|]).
    + destruct (Hs Hst) as [Hst'|(c0 & r & -> & Hr)]; [left; exact Hst'|].
      right. exists c0, r. split; [left; reflexivity | exact Hr].
    + right. exists c0, r. split; [right; exact Hin | exact Hr].
Qed.

Lemma rejection_provenance_witness :
  let tr := [StartObserving 0%nat; PermissionSettled 0%nat granted_coarse_only;
             StartObserving 1%nat] in
  In (Rejected 1%nat (Error "Called startObserving more than once"))
     (snd (run constructor tr)) ∧
  ∃ c0 r, In (PermissionSettled c0 r) tr ∧ requestLocationPermission r = Returns.
Proof.
  intros tr.
  assert (H : In (Rejected 1%nat (Error "Called startObserving more than once"))
                 (snd (run constructor tr))) by find_in_list.
  split; [exact H|].
  destruct (rejection_provenance constructor tr 1%nat _ H) as [_ [Hst|Hex]].
  - discriminate Hst.
  - exact Hex.
Defined.

(** ** [stopObserving] while the permission request is pending *)

(** X8.  [stopObserving] does not cancel a start that is still waiting for
    the permission request.  On a session that has not started, after
    [startObserving], a [stopObserving] made before the request settles does
    nothing at all, and when the request then succeeds the session starts
    all the same: [started] is set, the listener, the initial request and
    the continuous subscription are registered and [watchId] names it. *)
Theorem stop_before_permission_does_not_cancel (s : state) (c : call) (r : settled) :
  idle s → awaiting s = [] → requestLocationPermission r = Returns →
  step (fst (step s (StartObserving c))) StopObserving =
    (fst (step s (StartObserving c)), []) ∧
  started (fst (run s [StartObserving c; StopObserving; PermissionSettled c r])) = true ∧
  listener (fst (run s [StartObserving c; StopObserving; PermissionSettled c r])) = Some c ∧
  watchId (fst (run s [StartObserving c; StopObserving; PermissionSettled c r]))
    = Some (next_watch s) ∧
  watches (fst (run s [StartObserving c; StopObserving; PermissionSettled c r]))
    !! next_watch s = Some (until_accurate_request c) ∧
  polls (fst (run s [StartObserving c; StopObserving; PermissionSettled c r]))
    !! next_poll s = Some (initial_request c).
Proof.
  intros (Hs & Hw & Hl & Hp & Hwa) Ha Hr.
  destruct s as [st wid aw li po wa np nw]. simpl in *. subst.
  cbn [run step]. unfold startObserving, stopObserving. simpl.
  destruct (decide (c = c)) as [_|Hne]; [|contradiction]. simpl.
  unfold startObserving_resume. rewrite Hr. simpl.
  split; [reflexivity|]. split; [reflexivity|]. split; [reflexivity|].
  split; [reflexivity|]. split; apply lookup_insert_eq.
Qed.

Lemma stop_before_permission_does_not_cancel_witness :
  idle constructor ∧
  started (fst (run constructor [StartObserving 0%nat; StopObserving;
                                 PermissionSettled 0%nat granted_both])) = true ∧
  watchId (fst (run constructor [StartObserving 0%nat; StopObserving;
                                 PermissionSettled 0%nat granted_both])) = Some 0%nat.
Proof.
  assert (Hi : idle constructor) by (repeat split).
  destruct (stop_before_permission_does_not_cancel constructor 0%nat granted_both
              Hi eq_refl eq_refl) as (_ & Hst & _ & Hid & _).
  split; [exact Hi|]. split; [exact Hst | exact Hid].
Defined.

(** ** The requests the session registers *)

Lemma invoke_shaped (cb : success_callback) (position : value) (s : state) :
  shaped s → shaped (fst (invoke cb position s)).
Proof.
  intros [Hp Hw]. destruct cb as [c|c]; simpl; [split; assumption|].
  unfold untilAccurate. destruct (accuracy position); [|split; assumption].
  destruct (js_le _ _); [|split; assumption].
  unfold clearWatch. destruct (watchId s) as [w|]; simpl; (split; [exact Hp|]); simpl.
  - apply insert_all; [apply delete_all; exact Hw|]. exists c. right. reflexivity.
  - apply insert_all; [exact Hw|]. exists c. right. reflexivity.
Qed.

Lemma step_shaped (s : state) (e : event) : shaped s → shaped (fst (step s e)).
Proof.
  intros Hsh. pose proof Hsh as [Hp Hw].
  destruct e as [c| |c r|i p|i err|w p|w err|status]; simpl.
  - unfold startObserving. destruct (started s); exact Hsh.
  - unfold stopObserving. destruct (watchId s) as [w|]; [|exact Hsh].
    split; simpl; [exact Hp|]. apply delete_all. exact Hw.
  - destruct (resume c (awaiting s)) as [l|]; [|exact Hsh].
    unfold startObserving_resume. destruct (requestLocationPermission r); [|exact Hsh].
    split; simpl.
    + apply insert_all; [exact Hp|]. exists c. reflexivity.
    + apply insert_all; [exact Hw|]. exists c. left. reflexivity.
  - destruct (polls s !! i) as [r|]; [|exact Hsh]. apply invoke_shaped.
    split; simpl; [|exact Hw]. apply delete_all. exact Hp.
  - destruct (polls s !! i) as [r|]; [|exact Hsh].
    split; simpl; [|exact Hw]. apply delete_all. exact Hp.
  - destruct (watches s !! w) as [r|]; [|exact Hsh]. apply invoke_shaped. exact Hsh.
  - destruct (watches s !! w) as [r|]; exact Hsh.
  - destruct (listener s) as [c|]; [|exact Hsh]. unfold gpsListener.
    assert (Hpoll : shaped (fst (getInitialPosition (OnUpdate c) c s))).
    { split; simpl; [|exact Hw]. apply insert_all; [exact Hp|]. exists c. reflexivity. }
    destruct (decide (status = AUTHORIZED)); destruct (decide (status ≠ RESTRICTED));
      simpl; assumption.
Qed.

Lemma run_shaped (s : state) (tr : list event) : shaped s → shaped (fst (run s tr)).
Proof.
  revert s. induction tr as [|e tr IH]; intros s Hs; simpl; [exact Hs|].
  pose proof (step_shaped s e Hs) as H1. destruct (step s e) as [s1 a1].
  pose proof (IH s1 H1) as H2. destruct (run s1 tr) as [s2 a2]. exact H2.
Qed.

(** X9.  Whatever happens to a new session, what it has registered with the
    driver is always of three kinds.  A pending single-shot request is a
    low-accuracy one with the 10 minute timeout and the 5 minute maximum
    age, answered by [onUpdate].  A subscription is a high-accuracy one with
    the same timeout and no cached positions, and either it has distance
    filter 0 and the switching callback, or it has distance filter
    [MIN_DISTANCE] and plain [onUpdate], which never switches again.  In all
    of them the error callback is the [onError] of the same caller. *)
Theorem registered_requests (tr : list event) :
  (∀ i r, polls (fst (run constructor tr)) !! i = Some r →
     ∃ c, success r = OnUpdate c ∧ error_callback r = c ∧
          request_options r = {| enableHighAccuracy := false; timeout := 600000;
                                 maximumAge := 300000; distanceFilter := None |}) ∧
  (∀ id r, watches (fst (run constructor tr)) !! id = Some r →
     ∃ c, error_callback r = c ∧
          enableHighAccuracy (request_options r) = true ∧
          timeout (request_options r) = 600000 ∧
          maximumAge (request_options r) = 0 ∧
          ((success r = UntilAccurate c ∧ distanceFilter (request_options r) = Some 0) ∨
           (success r = OnUpdate c ∧ distanceFilter (request_options r) = Some 10))).
Proof.
  assert (Hsh : shaped (fst (run constructor tr))).
  { apply run_shaped. split; intros i r H; simpl in H; rewrite lookup_empty in H;
      discriminate. }
  destruct Hsh as [Hp Hw]. split.
  - intros i r Hr. destruct (Hp i r Hr) as [c ->]. exists c. repeat split.
  - intros id r Hr. destruct (Hw id r Hr) as [c [->| ->]]; exists c; simpl.
    + repeat split. left. split; reflexivity.
    + repeat split. right. split; reflexivity.
Qed.

Lemma registered_requests_witness :
  let tr := [StartObserving 0%nat; PermissionSettled 0%nat granted_both;
             WatchFix 0%nat (position_with_accuracy 2)] in
  watches (fst (run constructor tr)) !! 1%nat = Some (movement_request 0%nat) ∧
  ∃ c, error_callback (movement_request 0%nat) = c ∧
       maximumAge (request_options (movement_request 0%nat)) = 0.
Proof.
  intros tr.
  assert (H : watches (fst (run constructor tr)) !! 1%nat = Some (movement_request 0%nat))
    by (vm_compute; reflexivity).
  split; [exact H|].
  destruct (proj2 (registered_requests tr) 1%nat _ H) as (c & Hc & _ & _ & Hm & _).
  exists c. split; [exact Hc | exact Hm].
Defined.

(** ** What keeps a subscription alive *)

Lemma invoke_keeps (cb : success_callback) (position : value) (s : state) :
  accurate position = false →
  fst (invoke cb position s) = s ∧ ∀ x, ¬ In (ClearWatch x) (snd (invoke cb position s)).
Proof.
  intros Hacc.
  assert (Hc : ∀ c x, ¬ In (ClearWatch x) (callOnUpdate c position)).
  { intros c x. unfold callOnUpdate. destruct (onUpdate position); intros [H|[]]; discriminate. }
  destruct cb as [c|c]; simpl; [split; [reflexivity | apply Hc]|].
  unfold untilAccurate. unfold accurate in Hacc.
  destruct (accuracy position) as [a|]; simpl.
  - rewrite Hacc. split; [reflexivity | apply Hc].
  - split; [reflexivity|]. intros x [H|[]]. discriminate.
Qed.

Lemma step_keeps (s : state) (e : event) :
  numbered s → may_cancel e = false →
  (∀ id r, watches s !! id = Some r → watches (fst (step s e)) !! id = Some r) ∧
  (∀ x, ¬ In (ClearWatch x) (snd (step s e))).
Proof.
  intros [Hnp Hnw] He.
  destruct e as [c| |c r|i p|i err|w p|w err|status]; simpl in *; try discriminate.
  - unfold startObserving. destruct (started s); simpl;
      (split; [auto|]); intros x [H|[]]; discriminate.
  - destruct (resume c (awaiting s)); simpl; [|split; [auto | intros x []]].
    unfold startObserving_resume. destruct (requestLocationPermission r); simpl.
    + split.
      * intros id r0 Hr. rewrite lookup_insert_ne; [exact Hr|].
        apply Hnw in Hr. lia.
      * intros x [H|[H|[H|[H|[]]]]]; discriminate.
    + split; [auto|]. intros x [H|[]]; discriminate.
  - destruct (polls s !! i); simpl; [|split; [auto | intros x []]].
    destruct (invoke_keeps (success r) p
                (set_polls (delete i (polls s)) (next_poll s) s) He) as [-> Hc].
    split; [auto | exact Hc].
  - destruct (polls s !! i); simpl; [|split; [auto | intros x []]].
    split; [auto|]. intros x [H|[]]; discriminate.
  - destruct (watches s !! w); simpl; [|split; [auto | intros x []]].
    destruct (invoke_keeps (success r) p s He) as [-> Hc]. split; [auto | exact Hc].
  - destruct (watches s !! w); simpl; [|split; [auto | intros x []]].
    split; [auto|]. intros x [H|[]]; discriminate.
  - destruct (listener s) as [c|]; simpl; [|split; [auto | intros x []]].
    unfold gpsListener.
    destruct (decide (status = AUTHORIZED)); destruct (decide (status ≠ RESTRICTED));
      simpl; (split; [auto|]); intros x H;
      repeat (destruct H as [H|H]; try discriminate); contradiction.
Qed.

(** X10.  Nothing but [stopObserving] and a position that passes the
    accuracy test ever cancels a subscription: along any other events
    (driver errors and timeouts, service signals including RESTRICTED,
    inaccurate or malformed positions, further [startObserving] calls), a
    registered subscription stays registered and [clearWatch] is never
    called. *)
Theorem subscription_survives (s : state) (tr : list event) :
  numbered s → forallb (λ e, negb (may_cancel e)) tr = true →
  (∀ id r, watches s !! id = Some r → watches (fst (run s tr)) !! id = Some r) ∧
  (∀ x, ¬ In (ClearWatch x) (snd (run s tr))).
Proof.
  revert s. induction tr as [|e tr IH]; intros s Hn Htr; simpl;
    [split; [auto | intros x []]|].
  simpl in Htr. apply andb_true_iff in Htr as [He Htr]. apply negb_true_iff in He.
  destruct (step_keeps s e Hn He) as [H1 H1c].
  pose proof (step_numbered s e Hn) as Hn1.
  destruct (step s e) as [s1 a1]. destruct (IH s1 Hn1 Htr) as [H2 H2c].
  destruct (run s1 tr) as [s2 a2]. simpl in *. split.
  - intros id r Hr. apply H2, H1, Hr.
  - intros x Hin. apply in_app_iff in Hin as [Hin|Hin]; [eapply H1c | eapply H2c]; exact Hin.
Qed.

Lemma subscription_survives_witness :
  let s := fst (run constructor [StartObserving 0%nat; PermissionSettled 0%nat granted_both]) in
  let tr := [WatchFailed 0%nat (createError "timeout" errorCodes.TIMEOUT);
             GPSStatus RESTRICTED; WatchFix 0%nat (position_with_accuracy 40);
             WatchFix 0%nat VNull; GPSStatus AUTHORIZED] in
  numbered s ∧ forallb (λ e, negb (may_cancel e)) tr = true ∧
  watches (fst (run s tr)) !! 0%nat = Some (until_accurate_request 0%nat).
Proof.
  intros s tr.
  assert (Hn : numbered s) by (apply run_numbered, numbered_constructor).
  assert (Htr : forallb (λ e, negb (may_cancel e)) tr = true) by (vm_compute; reflexivity).
  split; [exact Hn|]. split; [exact Htr|].
  apply (proj1 (subscription_survives s tr Hn Htr)). vm_compute. reflexivity.
Defined.

(** ** The constants of the class *)

Lemma codes_disjoint (k : string) (v : Z) :
  statusCodes_object !! k = Some v → errorCodes_object !! k = None.
Proof.
  intros Hk. unfold statusCodes_object in Hk.
  apply lookup_insert_Some in Hk as [[<- _]|[_ Hk]]; [vm_compute; reflexivity|].
  apply lookup_insert_Some in Hk as [[<- _]|[_ Hk]]; [vm_compute; reflexivity|].
  apply lookup_singleton_Some in Hk as [<- _]. vm_compute. reflexivity.
Qed.

(** X11.  [Object.assign(GeoLocation, statusCodes, errorCodes)] loses
    nothing: the two tables share no name, so every status name and every
    error name is a constant of the class with the value its own table
    gives, and the class has these seven constants and no other. *)
Theorem class_constants :
  (∀ k v, statusCodes_object !! k = Some v → GeoLocation_constants !! k = Some v) ∧
  (∀ k v, errorCodes_object !! k = Some v → GeoLocation_constants !! k = Some v) ∧
  (∀ k v, GeoLocation_constants !! k = Some v →
     statusCodes_object !! k = Some v ∨ errorCodes_object !! k = Some v) ∧
  size GeoLocation_constants = 7%nat.
Proof.
  unfold GeoLocation_constants, Object_assign. simpl. rewrite (right_id_L ∅ (∪)).
  split; [|split; [|split]].
  - intros k v Hk. apply lookup_union_Some_raw. right.
    split; [apply (codes_disjoint k v Hk) | exact Hk].
  - intros k v Hk. apply lookup_union_Some_raw. left. exact Hk.
  - intros k v Hk. apply lookup_union_Some_raw in Hk as [Hk|[_ Hk]]; auto.
  - vm_compute. reflexivity.
Qed.

Lemma class_constants_witness :
  statusCodes_object !! "HIGH_ACCURACY" = Some 3 ∧
  GeoLocation_constants !! "HIGH_ACCURACY" = Some 3 ∧
  GeoLocation_constants !! "TIMEOUT" = Some 3.
Proof.
  assert (H : statusCodes_object !! "HIGH_ACCURACY" = Some 3) by (vm_compute; reflexivity).
  split; [exact H|]. split.
  - apply (proj1 class_constants "HIGH_ACCURACY" 3 H).
  - apply (proj1 (proj2 class_constants) "TIMEOUT" 3). vm_compute. reflexivity.
Defined.

(** * Properties of the example screen *)

Section ScreenProperties.

Variable JSON_stringify : value → string.

Lemma render_actions_app (c : call) (st : component_state) (l1 l2 : list action) :
  render_actions JSON_stringify c st (l1 ++ l2) =
  render_actions JSON_stringify c (render_actions JSON_stringify c st l1) l2.
Proof. apply foldl_app. Qed.

Lemma render_action_keeps (c : call) (st : component_state) (a : action) :
  state_count (render_action JSON_stringify c st a) = state_count st ∧
  (state_error st = None ∨ state_position st = "unknown" →
   state_error (render_action JSON_stringify c st a) = None ∨
   state_position (render_action JSON_stringify c st a) = "unknown").
Proof.
  destruct a as [c' v|c' err| | | | | | | |]; simpl; try (split; [reflexivity | auto]).
  - destruct (decide (c' = c)); simpl; split; auto.
  - destruct (decide (c' = c)); simpl; split; auto.
Qed.

(** X12.  While the example screen is mounted its two callbacks keep its
    state coherent: whatever the session does, [count] is never changed and
    the screen never holds an error together with a position (when [error]
    is set, [position] is ['unknown']); and the state after the last
    callback is fixed by that callback alone: after [onLocation] it shows
    the JSON text of the update and no error, after [onError] with an error
    whose code is an unsigned short (or missing) it shows
    ['ERROR(code): message'], the code in decimal, and the position
    ['unknown']. *)
Theorem screen_coherent (c : call) (st : component_state) (l : list action) :
  state_count (render_actions JSON_stringify c st l) = state_count st ∧
  (state_error st = None ∨ state_position st = "unknown" →
   state_error (render_actions JSON_stringify c st l) = None ∨
   state_position (render_actions JSON_stringify c st l) = "unknown") ∧
  (∀ v, render_actions JSON_stringify c st (l ++ [Location c v]) =
        {| state_position := JSON_stringify v; state_error := None;
           state_count := state_count st |}) ∧
  (∀ err, (∀ z, code err = Some z → 0 <= z < 65536) →
        render_actions JSON_stringify c st (l ++ [Failure c err]) =
        {| state_position := "unknown";
           state_error := Some ("ERROR(" +:+ code_text (code err) +:+ "): " +:+ message err);
           state_count := state_count st |}).
Proof.
  assert (Hk : ∀ l st, state_count (render_actions JSON_stringify c st l) = state_count st ∧
    (state_error st = None ∨ state_position st = "unknown" →
     state_error (render_actions JSON_stringify c st l) = None ∨
     state_position (render_actions JSON_stringify c st l) = "unknown")).
  { clear. induction l as [|a l IH]; intros st; simpl; [auto|].
    destruct (render_action_keeps c st a) as [H1 H2].
    destruct (IH (render_action JSON_stringify c st a)) as [H3 H4].
    split; [congruence | auto]. }
  destruct (Hk l st) as [Hc Hi].
  split; [exact Hc|]. split; [exact Hi|]. split.
  - intros v. rewrite render_actions_app. simpl.
    destruct (decide (c = c)); [|contradiction]. unfold show_position. rewrite Hc. reflexivity.
  - intros err _. rewrite render_actions_app. simpl.
    destruct (decide (c = c)); [|contradiction]. unfold show_error. rewrite Hc. reflexivity.
Qed.

(** X13.  The example screen after the permission dialog.  The component
    mounts on a host with nothing registered and the request settles: if the
    coarse scope is not granted the screen shows position ['unknown'] and
    the error ['ERROR(1): Location permission denied by user']; if the
    request raises, ['ERROR(4): '] followed by the host's message; if the
    coarse scope is granted, the JSON text of the SEARCHING update and no
    error. *)
Theorem screen_after_permission (s : state) (c : call) (r : settled) :
  idle s → awaiting s = [] →
  let mounted := componentDidMount c s in
  let settled := step (fst mounted) (PermissionSettled c r) in
  let screen := render_actions JSON_stringify c initial_component_state
                  (snd mounted ++ snd settled) in
  (∀ granted, r = Resolved granted →
     granted !! ACCESS_COARSE_LOCATION ≠ Some "granted" →
     screen = {| state_position := "unknown";
                 state_error := Some "ERROR(1): Location permission denied by user";
                 state_count := 0 |}) ∧
  (∀ err, r = Raised err →
     screen = {| state_position := "unknown";
                 state_error := Some ("ERROR(4): " +:+ message err);
                 state_count := 0 |}) ∧
  (∀ granted, r = Resolved granted →
     granted !! ACCESS_COARSE_LOCATION = Some "granted" →
     screen = {| state_position := JSON_stringify searching;
                 state_error := None; state_count := 0 |}).
Proof.
  intros (Hs & Hw & Hl & Hp & Hwa) Ha.
  assert (Hact : ∀ acts,
    snd (startObserving_resume c r
           (set_awaiting [] (set_awaiting [c] (set_watchId None (set_started false s))))) = acts →
    snd (componentDidMount c s) ++
    snd (step (fst (componentDidMount c s)) (PermissionSettled c r)) =
    RequestMultiple [ACCESS_FINE_LOCATION; ACCESS_COARSE_LOCATION] :: acts).
  { intros acts <-. unfold componentDidMount, startObserving. simpl. rewrite Ha. simpl.
    destruct (decide (c = c)); [|contradiction]. reflexivity. }
  cbv zeta. split; [|split].
  - intros granted -> Hg. erewrite Hact.
    2:{ unfold startObserving_resume. simpl.
        destruct (decide _); [contradiction|]. reflexivity. }
    simpl. destruct (decide (c = c)); [|contradiction]. reflexivity.
  - intros err ->. erewrite Hact; [|reflexivity].
    simpl. destruct (decide (c = c)); [|contradiction]. reflexivity.
  - intros granted -> Hg. erewrite Hact.
    2:{ unfold startObserving_resume. simpl.
        destruct (decide _); [|contradiction]. reflexivity. }
    simpl. destruct (decide (c = c)); [|contradiction]. reflexivity.
Qed.

(** X14.  The example screen on a service signal, while the listener of its
    session is registered: RESTRICTED replaces whatever was shown by
    position ['unknown'] and the error ['ERROR(2): Location services are
    turned off']; AUTHORIZED clears the error and shows the JSON text of the
    SEARCHING update; any other status leaves the screen as it is. *)
Theorem screen_on_service_signal (s : state) (c : call) (st : component_state) :
  listener s = Some c →
  render_actions JSON_stringify c st (snd (step s (GPSStatus RESTRICTED))) =
    {| state_position := "unknown";
       state_error := Some "ERROR(2): Location services are turned off";
       state_count := state_count st |} ∧
  render_actions JSON_stringify c st (snd (step s (GPSStatus AUTHORIZED))) =
    {| state_position := JSON_stringify searching; state_error := None;
       state_count := state_count st |} ∧
  (∀ n, render_actions JSON_stringify c st (snd (step s (GPSStatus (OtherStatus n)))) = st).
Proof.
  intros Hl. simpl. rewrite Hl. unfold gpsListener. simpl.
  destruct (decide (c = c)); [|contradiction]. repeat split.
Qed.

(** X15.  Unmounting the example screen before the permission dialog is
    answered stops nothing: [componentWillUnmount] finds no subscription and
    does nothing, and when the request is then granted the session starts
    all the same: it calls the [onLocation] callback of the unmounted
    component with the SEARCHING update and registers its listener, the
    initial request and the continuous subscription, which nothing will
    cancel. *)
Theorem unmount_before_permission (s : state) (c : call) (r : settled) :
  idle s → awaiting s = [] → requestLocationPermission r = Returns →
  let mounted := fst (componentDidMount c s) in
  componentWillUnmount mounted = (mounted, []) ∧
  listener (fst (step mounted (PermissionSettled c r))) = Some c ∧
  watches (fst (step mounted (PermissionSettled c r))) !! next_watch s
    = Some (until_accurate_request c) ∧
  snd (step mounted (PermissionSettled c r)) =
    [Location c searching; AddListener c;
     GetCurrentPosition (next_poll s) (request_options (initial_request c));
     WatchPosition (next_watch s) (request_options (until_accurate_request c))].
Proof.
  intros (Hs & Hw & Hl & Hp & Hwa) Ha Hr. cbv zeta.
  unfold componentDidMount, componentWillUnmount, startObserving, stopObserving. simpl.
  rewrite Ha. simpl. destruct (decide (c = c)); [|contradiction]. simpl.
  unfold startObserving_resume. rewrite Hr. simpl.
  split; [reflexivity|]. split; [reflexivity|]. split; [apply lookup_insert_eq | reflexivity].
Qed.

End ScreenProperties.

Lemma screen_coherent_witness :
  let render := render_actions (λ _, "{}") 0%nat in
  let l := snd (run constructor [StartObserving 0%nat; PermissionSettled 0%nat granted_both;
                                 PollFix 0%nat (position_with_accuracy 20)]) in
  let err := createError "timed out" errorCodes.TIMEOUT in
  (state_error initial_component_state = None ∨
   state_position initial_component_state = "unknown") ∧
  (state_error (render initial_component_state l) = None ∨
   state_position (render initial_component_state l) = "unknown") ∧
  (∀ z, code err = Some z → 0 <= z < 65536) ∧
  render initial_component_state (l ++ [Failure 0%nat err]) =
    {| state_position := "unknown"; state_error := Some "ERROR(3): timed out";
       state_count := 0 |}.
Proof.
  intros render l err.
  assert (H0 : state_error initial_component_state = None ∨
               state_position initial_component_state = "unknown") by (left; reflexivity).
  assert (Hb : ∀ z, code err = Some z → 0 <= z < 65536).
  { intros z [= <-]. unfold errorCodes.TIMEOUT. lia. }
  split; [exact H0|]. split; [|split; [exact Hb|]].
  - apply (proj1 (proj2 (screen_coherent (λ _, "{}") 0%nat initial_component_state l)) H0).
  - apply (proj2 (proj2 (proj2 (screen_coherent (λ _, "{}") 0%nat
                                  initial_component_state l))) err Hb).
Defined.

Lemma screen_after_permission_witness :
  idle constructor ∧
  render_actions (λ _, "{}") 0%nat initial_component_state
    (snd (componentDidMount 0%nat constructor) ++
     snd (step (fst (componentDidMount 0%nat constructor))
               (PermissionSettled 0%nat denied_both))) =
    {| state_position := "unknown";
       state_error := Some "ERROR(1): Location permission denied by user";
       state_count := 0 |}.
Proof.
  assert (Hi : idle constructor) by (repeat split).
  split; [exact Hi|].
  apply (proj1 (screen_after_permission (λ _, "{}") constructor 0%nat denied_both
                  Hi eq_refl) _ eq_refl).
  vm_compute. discriminate.
Defined.

Lemma screen_on_service_signal_witness :
  let s := fst (run constructor [StartObserving 0%nat; PermissionSettled 0%nat granted_both]) in
  listener s = Some 0%nat ∧
  render_actions (λ _, "{}") 0%nat initial_component_state
    (snd (step s (GPSStatus RESTRICTED))) =
    {| state_position := "unknown";
       state_error := Some "ERROR(2): Location services are turned off";
       state_count := 0 |}.
Proof.
  intros s. assert (Hl : listener s = Some 0%nat) by reflexivity.
  split; [exact Hl|].
  apply (proj1 (screen_on_service_signal (λ _, "{}") s 0%nat initial_component_state Hl)).
Defined.

Lemma unmount_before_permission_witness :
  idle constructor ∧
  componentWillUnmount (fst (componentDidMount 0%nat constructor)) =
    (fst (componentDidMount 0%nat constructor), []) ∧
  listener (fst (step (fst (componentDidMount 0%nat constructor))
                      (PermissionSettled 0%nat granted_both))) = Some 0%nat.
Proof.
  assert (Hi : idle constructor) by (repeat split).
  destruct (unmount_before_permission constructor 0%nat granted_both
              Hi eq_refl eq_refl) as (Hu & Hl & _).
  split; [exact Hi|]. split; [exact Hu | exact Hl].
Defined.
